(** * Reprojection residual functors of openMVG's bundle adjustment

    Shallow embedding of
    [src/openMVG/sfm/sfm_data_BA_ceres_camera_functor.hpp].

    The four functors are templates over a numeric type [T] that offers
    [+], [-], [*], [/] and the rotation primitive.  The development
    instantiates [T] with the real numbers [R]: every arithmetic step is
    exact, so the theorems speak about the formulas the code evaluates and
    not about the rounding of [double].  One convention of [R] differs from
    IEEE arithmetic and is kept out of the statements by a hypothesis on
    the depth wherever a claim has one: [x / 0] is [0] in [R], where
    [double] yields an infinity or a NaN.

    A parameter block ([const T*]) is a list of scalars read by index; the
    arity of each block (3/4/6/9 intrinsics, 6 extrinsics, 3 point
    coordinates, 2 residuals) is a contract with the caller, and a read
    past the end, undefined in C++, yields [0] here. *)

From Stdlib Require Import Reals List Lra Lia.
Import ListNotations.
Open Scope R_scope.

(** ** Parameter blocks *)

Definition block := list R.

(** [p[i]] *)
Definition rd (p : block) (i : nat) : R := nth i p 0.

(** [&p[i]] *)
Definition offset (p : block) (i : nat) : block := skipn i p.

(** ** The rotation primitive *)

Module ceres.

(** [x . y] on the first three entries. *)
Definition DotProduct (x y : block) : R :=
  rd x 0 * rd y 0 + rd x 1 * rd y 1 + rd x 2 * rd y 2.

(** Modelled from the spec: [ceres::AngleAxisRotatePoint] lives in
    [ceres/rotation.h], which the functor header includes but which is not
    among the sources.  The spec gives Rodrigues' formula: with
    [theta = |w|] and unit axis [a = w / theta], the rotated point is
    [p cos theta + (a x p) sin theta + a (a . p) (1 - cos theta)], and the
    zero-rotation case is guarded by the first-order Taylor approximation
    [p + w x p].  The spec does not give the width of the guard; it is the
    parameter [eps], a bound on the squared angle, only known to be
    nonnegative. *)
Definition AngleAxisRotatePoint (eps : nonnegreal)
    (angle_axis pt : block) : block :=
  let theta2 := DotProduct angle_axis angle_axis in
  if Rlt_dec eps theta2 then
    let theta := sqrt theta2 in
    let costheta := cos theta in
    let sintheta := sin theta in
    let w0 := rd angle_axis 0 / theta in
    let w1 := rd angle_axis 1 / theta in
    let w2 := rd angle_axis 2 / theta in
    let w_cross_pt0 := w1 * rd pt 2 - w2 * rd pt 1 in
    let w_cross_pt1 := w2 * rd pt 0 - w0 * rd pt 2 in
    let w_cross_pt2 := w0 * rd pt 1 - w1 * rd pt 0 in
    let tmp :=
      (w0 * rd pt 0 + w1 * rd pt 1 + w2 * rd pt 2) * (1 - costheta) in
    [ rd pt 0 * costheta + w_cross_pt0 * sintheta + w0 * tmp;
      rd pt 1 * costheta + w_cross_pt1 * sintheta + w1 * tmp;
      rd pt 2 * costheta + w_cross_pt2 * sintheta + w2 * tmp ]
  else
    let w_cross_pt0 := rd angle_axis 1 * rd pt 2 - rd angle_axis 2 * rd pt 1 in
    let w_cross_pt1 := rd angle_axis 2 * rd pt 0 - rd angle_axis 0 * rd pt 2 in
    let w_cross_pt2 := rd angle_axis 0 * rd pt 1 - rd angle_axis 1 * rd pt 0 in
    [ rd pt 0 + w_cross_pt0;
      rd pt 1 + w_cross_pt1;
      rd pt 2 + w_cross_pt2 ].

End ceres.

(** The machine epsilon of [double], [2^-52]: the guard width the
    concrete examples below are evaluated with. *)
Definition double_epsilon : nonnegreal :=
  mknonnegreal (/ 2 ^ 52)
    (Rlt_le _ _ (Rinv_0_lt_compat _ (pow_lt 2 52 Rlt_0_2))).


(** ** The functors

    Each struct stores the observation [m_pos_2dpoint]; its constructor
    copies the two entries of [pos_2dpoint].  [operator()] writes
    [out_residuals] and returns a flag: it is modelled by [call], which
    returns both.  The stages of [operator()] are named after the local
    variables that hold their results. *)

Module ResidualErrorFunctor_Pinhole_Intrinsic.

Record t : Type := mk { m_pos_2dpoint : block }.

Definition make (pos_2dpoint : block) : t :=
  {| m_pos_2dpoint := [rd pos_2dpoint 0; rd pos_2dpoint 1] |}.

Definition OFFSET_FOCAL_LENGTH : nat := 0.
Definition OFFSET_PRINCIPAL_POINT_X : nat := 1.
Definition OFFSET_PRINCIPAL_POINT_Y : nat := 2.

(** Lines 64-74: rotate by the camera rotation, add the translation. *)
Definition pos_proj (eps : nonnegreal) (cam_Rt pos_3dpoint : block) : block :=
  let cam_R := cam_Rt in
  let cam_t := offset cam_Rt 3 in
  let pos_proj := ceres.AngleAxisRotatePoint eps cam_R pos_3dpoint in
  [ rd pos_proj 0 + rd cam_t 0;
    rd pos_proj 1 + rd cam_t 1;
    rd pos_proj 2 + rd cam_t 2 ].

(** Lines 77-78: [(x_u, y_u)]. *)
Definition undistorted (eps : nonnegreal) (cam_Rt pos_3dpoint : block)
    : R * R :=
  let pos_proj := pos_proj eps cam_Rt pos_3dpoint in
  let x_u := rd pos_proj 0 / rd pos_proj 2 in
  let y_u := rd pos_proj 1 / rd pos_proj 2 in
  (x_u, y_u).

(** Lines 84-90: [(projected_x, projected_y)]. *)
Definition projected (eps : nonnegreal) (cam_K cam_Rt pos_3dpoint : block)
    : R * R :=
  let '(x_u, y_u) := undistorted eps cam_Rt pos_3dpoint in
  let focal := rd cam_K OFFSET_FOCAL_LENGTH in
  let principal_point_x := rd cam_K OFFSET_PRINCIPAL_POINT_X in
  let principal_point_y := rd cam_K OFFSET_PRINCIPAL_POINT_Y in
  let projected_x := principal_point_x + focal * x_u in
  let projected_y := principal_point_y + focal * y_u in
  (projected_x, projected_y).

(** Lines 94-97: [out_residuals] and the returned flag. *)
Definition call (f : t) (eps : nonnegreal)
    (cam_K cam_Rt pos_3dpoint : block) : block * bool :=
  let '(projected_x, projected_y) :=
    projected eps cam_K cam_Rt pos_3dpoint in
  ([ projected_x - rd (m_pos_2dpoint f) 0;
     projected_y - rd (m_pos_2dpoint f) 1 ], true).

End ResidualErrorFunctor_Pinhole_Intrinsic.

Module ResidualErrorFunctor_Pinhole_Intrinsic_Radial_K1.

Record t : Type := mk { m_pos_2dpoint : block }.

Definition make (pos_2dpoint : block) : t :=
  {| m_pos_2dpoint := [rd pos_2dpoint 0; rd pos_2dpoint 1] |}.

Definition OFFSET_FOCAL_LENGTH : nat := 0.
Definition OFFSET_PRINCIPAL_POINT_X : nat := 1.
Definition OFFSET_PRINCIPAL_POINT_Y : nat := 2.
Definition OFFSET_DISTO_K1 : nat := 3.

(** Lines 148-158. *)
Definition pos_proj (eps : nonnegreal) (cam_Rt pos_3dpoint : block) : block :=
  let cam_R := cam_Rt in
  let cam_t := offset cam_Rt 3 in
  let pos_proj := ceres.AngleAxisRotatePoint eps cam_R pos_3dpoint in
  [ rd pos_proj 0 + rd cam_t 0;
    rd pos_proj 1 + rd cam_t 1;
    rd pos_proj 2 + rd cam_t 2 ].

(** Lines 161-162. *)
Definition undistorted (eps : nonnegreal) (cam_Rt pos_3dpoint : block)
    : R * R :=
  let pos_proj := pos_proj eps cam_Rt pos_3dpoint in
  let x_u := rd pos_proj 0 / rd pos_proj 2 in
  let y_u := rd pos_proj 1 / rd pos_proj 2 in
  (x_u, y_u).

(** Lines 171-175: [r_coeff]. *)
Definition r_coeff (cam_K : block) (x_u y_u : R) : R :=
  let k1 := rd cam_K OFFSET_DISTO_K1 in
  let r2 := x_u * x_u + y_u * y_u in
  1 + k1 * r2.

(** Lines 176-177: [(x_d, y_d)]. *)
Definition distorted (eps : nonnegreal) (cam_K cam_Rt pos_3dpoint : block)
    : R * R :=
  let '(x_u, y_u) := undistorted eps cam_Rt pos_3dpoint in
  let r_coeff := r_coeff cam_K x_u y_u in
  let x_d := x_u * r_coeff in
  let y_d := y_u * r_coeff in
  (x_d, y_d).

(** Lines 168-170 and 180-181. *)
Definition projected (eps : nonnegreal) (cam_K cam_Rt pos_3dpoint : block)
    : R * R :=
  let '(x_d, y_d) := distorted eps cam_K cam_Rt pos_3dpoint in
  let focal := rd cam_K OFFSET_FOCAL_LENGTH in
  let principal_point_x := rd cam_K OFFSET_PRINCIPAL_POINT_X in
  let principal_point_y := rd cam_K OFFSET_PRINCIPAL_POINT_Y in
  let projected_x := principal_point_x + focal * x_d in
  let projected_y := principal_point_y + focal * y_d in
  (projected_x, projected_y).

(** Lines 185-188. *)
Definition call (f : t) (eps : nonnegreal)
    (cam_K cam_Rt pos_3dpoint : block) : block * bool :=
  let '(projected_x, projected_y) :=
    projected eps cam_K cam_Rt pos_3dpoint in
  ([ projected_x - rd (m_pos_2dpoint f) 0;
     projected_y - rd (m_pos_2dpoint f) 1 ], true).

End ResidualErrorFunctor_Pinhole_Intrinsic_Radial_K1.

Module ResidualErrorFunctor_Pinhole_Intrinsic_Radial_K3.

Record t : Type := mk { m_pos_2dpoint : block }.

Definition make (pos_2dpoint : block) : t :=
  {| m_pos_2dpoint := [rd pos_2dpoint 0; rd pos_2dpoint 1] |}.

Definition OFFSET_FOCAL_LENGTH : nat := 0.
Definition OFFSET_PRINCIPAL_POINT_X : nat := 1.
Definition OFFSET_PRINCIPAL_POINT_Y : nat := 2.
Definition OFFSET_DISTO_K1 : nat := 3.
Definition OFFSET_DISTO_K2 : nat := 4.
Definition OFFSET_DISTO_K3 : nat := 5.

(** Lines 241-251. *)
Definition pos_proj (eps : nonnegreal) (cam_Rt pos_3dpoint : block) : block :=
  let cam_R := cam_Rt in
  let cam_t := offset cam_Rt 3 in
  let pos_proj := ceres.AngleAxisRotatePoint eps cam_R pos_3dpoint in
  [ rd pos_proj 0 + rd cam_t 0;
    rd pos_proj 1 + rd cam_t 1;
    rd pos_proj 2 + rd cam_t 2 ].

(** Lines 254-255. *)
Definition undistorted (eps : nonnegreal) (cam_Rt pos_3dpoint : block)
    : R * R :=
  let pos_proj := pos_proj eps cam_Rt pos_3dpoint in
  let x_u := rd pos_proj 0 / rd pos_proj 2 in
  let y_u := rd pos_proj 1 / rd pos_proj 2 in
  (x_u, y_u).

(** Lines 264-272: [r_coeff]. *)
Definition r_coeff (cam_K : block) (x_u y_u : R) : R :=
  let k1 := rd cam_K OFFSET_DISTO_K1 in
  let k2 := rd cam_K OFFSET_DISTO_K2 in
  let k3 := rd cam_K OFFSET_DISTO_K3 in
  let r2 := x_u * x_u + y_u * y_u in
  let r4 := r2 * r2 in
  let r6 := r4 * r2 in
  1 + k1 * r2 + k2 * r4 + k3 * r6.

(** Lines 273-274: [(x_d, y_d)]. *)
Definition distorted (eps : nonnegreal) (cam_K cam_Rt pos_3dpoint : block)
    : R * R :=
  let '(x_u, y_u) := undistorted eps cam_Rt pos_3dpoint in
  let r_coeff := r_coeff cam_K x_u y_u in
  let x_d := x_u * r_coeff in
  let y_d := y_u * r_coeff in
  (x_d, y_d).

(** Lines 261-263 and 277-278. *)
Definition projected (eps : nonnegreal) (cam_K cam_Rt pos_3dpoint : block)
    : R * R :=
  let '(x_d, y_d) := distorted eps cam_K cam_Rt pos_3dpoint in
  let focal := rd cam_K OFFSET_FOCAL_LENGTH in
  let principal_point_x := rd cam_K OFFSET_PRINCIPAL_POINT_X in
  let principal_point_y := rd cam_K OFFSET_PRINCIPAL_POINT_Y in
  let projected_x := principal_point_x + focal * x_d in
  let projected_y := principal_point_y + focal * y_d in
  (projected_x, projected_y).

(** Lines 282-285. *)
Definition call (f : t) (eps : nonnegreal)
    (cam_K cam_Rt pos_3dpoint : block) : block * bool :=
  let '(projected_x, projected_y) :=
    projected eps cam_K cam_Rt pos_3dpoint in
  ([ projected_x - rd (m_pos_2dpoint f) 0;
     projected_y - rd (m_pos_2dpoint f) 1 ], true).

End ResidualErrorFunctor_Pinhole_Intrinsic_Radial_K3.

Module ResidualErrorFunctor_Pinhole_Rig_Intrinsic.

Record t : Type := mk { m_pos_2dpoint : block }.

Definition make (pos_2dpoint : block) : t :=
  {| m_pos_2dpoint := [rd pos_2dpoint 0; rd pos_2dpoint 1] |}.

Definition OFFSET_FOCAL_LENGTH : nat := 0.
Definition OFFSET_PRINCIPAL_POINT_X : nat := 1.
Definition OFFSET_PRINCIPAL_POINT_Y : nat := 2.

(** Lines 337-358.  [cam_pose_t] is bound at line 338 and read nowhere
    after it; the sums of lines 356-358 add [cam_subpose_t] and
    [rig_trans] only. *)
Definition pos_proj (eps : nonnegreal)
    (cam_K cam_Rt pos_3dpoint : block) : block :=
  let cam_pose_R := cam_Rt in
  let cam_pose_t := offset cam_Rt 3 in
  let cam_subpose_R := offset cam_K 3 in
  let cam_subpose_t := offset cam_K 6 in
  let pos_rig := ceres.AngleAxisRotatePoint eps cam_pose_R pos_3dpoint in
  let pos_proj := ceres.AngleAxisRotatePoint eps cam_subpose_R pos_rig in
  let rig_trans := ceres.AngleAxisRotatePoint eps cam_pose_R cam_subpose_t in
  [ rd pos_proj 0 + (rd cam_subpose_t 0 + rd rig_trans 0);
    rd pos_proj 1 + (rd cam_subpose_t 1 + rd rig_trans 1);
    rd pos_proj 2 + (rd cam_subpose_t 2 + rd rig_trans 2) ].

(** Lines 361-362. *)
Definition undistorted (eps : nonnegreal)
    (cam_K cam_Rt pos_3dpoint : block) : R * R :=
  let pos_proj := pos_proj eps cam_K cam_Rt pos_3dpoint in
  let x_u := rd pos_proj 0 / rd pos_proj 2 in
  let y_u := rd pos_proj 1 / rd pos_proj 2 in
  (x_u, y_u).

(** Lines 368-374. *)
Definition projected (eps : nonnegreal) (cam_K cam_Rt pos_3dpoint : block)
    : R * R :=
  let '(x_u, y_u) := undistorted eps cam_K cam_Rt pos_3dpoint in
  let focal := rd cam_K OFFSET_FOCAL_LENGTH in
  let principal_point_x := rd cam_K OFFSET_PRINCIPAL_POINT_X in
  let principal_point_y := rd cam_K OFFSET_PRINCIPAL_POINT_Y in
  let projected_x := principal_point_x + focal * x_u in
  let projected_y := principal_point_y + focal * y_u in
  (projected_x, projected_y).

(** Lines 378-381. *)
Definition call (f : t) (eps : nonnegreal)
    (cam_K cam_Rt pos_3dpoint : block) : block * bool :=
  let '(projected_x, projected_y) :=
    projected eps cam_K cam_Rt pos_3dpoint in
  ([ projected_x - rd (m_pos_2dpoint f) 0;
     projected_y - rd (m_pos_2dpoint f) 1 ], true).

End ResidualErrorFunctor_Pinhole_Rig_Intrinsic.

Module Pinhole := ResidualErrorFunctor_Pinhole_Intrinsic.
Module RadialK1 := ResidualErrorFunctor_Pinhole_Intrinsic_Radial_K1.
Module RadialK3 := ResidualErrorFunctor_Pinhole_Intrinsic_Radial_K3.
Module Rig := ResidualErrorFunctor_Pinhole_Rig_Intrinsic.

(** The camera-space point of the rig functor as section 4.4 of the spec
    words it: the point rotated by the platform rotation, then by the
    sub-pose rotation, plus a total translation made of the sub-pose
    translation rotated by the platform rotation, the sub-pose translation
    itself and the platform translation.  It is compared with
    [Rig.pos_proj], which follows the code. *)
Definition Rig_pos_proj_spec (eps : nonnegreal)
    (cam_K cam_Rt pos_3dpoint : block) : block :=
  let platform_R := cam_Rt in
  let platform_t := offset cam_Rt 3 in
  let subpose_R := offset cam_K 3 in
  let subpose_t := offset cam_K 6 in
  let rotated :=
    ceres.AngleAxisRotatePoint eps subpose_R
      (ceres.AngleAxisRotatePoint eps platform_R pos_3dpoint) in
  let rotated_subpose_t :=
    ceres.AngleAxisRotatePoint eps platform_R subpose_t in
  [ rd rotated 0 + (rd rotated_subpose_t 0 + rd subpose_t 0 + rd platform_t 0);
    rd rotated 1 + (rd rotated_subpose_t 1 + rd subpose_t 1 + rd platform_t 1);
    rd rotated 2 + (rd rotated_subpose_t 2 + rd subpose_t 2 + rd platform_t 2) ].

(** ** The rotation primitive at zero *)

Section RotationFacts.

Variable eps : nonnegreal.

Lemma guard_excludes_zero (theta2 : R) : theta2 = 0 -> ~ eps < theta2.
Proof.
  intros -> Hlt. pose proof (cond_nonneg eps). lra.
Qed.

(** A zero axis-angle vector leaves the point where it is. *)
Lemma rotate_zero_axis (angle_axis pt : block) :
  rd angle_axis 0 = 0 -> rd angle_axis 1 = 0 -> rd angle_axis 2 = 0 ->
  ceres.AngleAxisRotatePoint eps angle_axis pt = [rd pt 0; rd pt 1; rd pt 2].
Proof.
  intros H0 H1 H2. unfold ceres.AngleAxisRotatePoint, ceres.DotProduct.
  rewrite H0, H1, H2.
  destruct (Rlt_dec eps (0 * 0 + 0 * 0 + 0 * 0)) as [Hlt | _].
  - exfalso. apply (guard_excludes_zero (0 * 0 + 0 * 0 + 0 * 0)); [ring | exact Hlt].
  - repeat f_equal; ring.
Qed.

(** The origin is a fixed point of every rotation. *)
Lemma rotate_zero_point (angle_axis pt : block) :
  rd pt 0 = 0 -> rd pt 1 = 0 -> rd pt 2 = 0 ->
  ceres.AngleAxisRotatePoint eps angle_axis pt = [0; 0; 0].
Proof.
  intros H0 H1 H2. unfold ceres.AngleAxisRotatePoint.
  rewrite H0, H1, H2.
  destruct (Rlt_dec eps (ceres.DotProduct angle_axis angle_axis));
    cbv zeta; repeat f_equal; ring.
Qed.

End RotationFacts.

(** ** The pinhole functor *)

Ltac unfold_pinhole :=
  unfold Pinhole.call, Pinhole.projected, Pinhole.undistorted,
    Pinhole.pos_proj, Pinhole.make, Pinhole.m_pos_2dpoint,
    Pinhole.OFFSET_FOCAL_LENGTH, Pinhole.OFFSET_PRINCIPAL_POINT_X,
    Pinhole.OFFSET_PRINCIPAL_POINT_Y.

(** Two residual vectors are equal when their entries are. *)
Lemma residuals_eq (a b c d : R) :
  a = c -> b = d -> ([a; b], true) = ([c; d], true).
Proof. intros -> ->. reflexivity. Qed.

(** Two points are equal when their coordinates are. *)
Lemma point_eq (a b c a' b' c' : R) :
  a = a' -> b = b' -> c = c' -> [a; b; c] = [a'; b'; c'].
Proof. intros -> -> ->. reflexivity. Qed.

(** C3: with intrinsics [focal, ppx, ppy], extrinsics [r, t], point [p]
    and observation [(obs_x, obs_y)], if the camera-space point
    [(Xc, Yc, Zc) = Rodrigues(r) p + t] has [Zc <> 0], the pinhole functor
    writes [(ppx + focal * (Xc / Zc) - obs_x, ppy + focal * (Yc / Zc) - obs_y)]
    (and returns [true]). *)
Theorem pinhole_residual_formula (eps : nonnegreal)
    (focal ppx ppy r0 r1 r2 t0 t1 t2 X Y Z obs_x obs_y : R) :
  let rotated := ceres.AngleAxisRotatePoint eps [r0; r1; r2] [X; Y; Z] in
  let Xc := rd rotated 0 + t0 in
  let Yc := rd rotated 1 + t1 in
  let Zc := rd rotated 2 + t2 in
  Zc <> 0 ->
  Pinhole.call (Pinhole.make [obs_x; obs_y]) eps
    [focal; ppx; ppy] [r0; r1; r2; t0; t1; t2] [X; Y; Z]
  = ([ppx + focal * (Xc / Zc) - obs_x; ppy + focal * (Yc / Zc) - obs_y], true).
Proof.
  intros rotated Xc Yc Zc _.
  unfold_pinhole. reflexivity.
Qed.

Lemma pinhole_residual_formula_witness :
  Pinhole.call (Pinhole.make [7; 9]) double_epsilon
    [1000; 500; 500] [0; 0; 0; 0; 0; 1] [2; 3; 4]
  = ([500 + 1000 * ((2 + 0) / (4 + 1)) - 7;
      500 + 1000 * ((3 + 0) / (4 + 1)) - 9], true).
Proof.
  assert (Hrot :
    ceres.AngleAxisRotatePoint double_epsilon [0; 0; 0] [2; 3; 4] = [2; 3; 4]).
  { apply rotate_zero_axis; reflexivity. }
  assert (Hz :
    rd (ceres.AngleAxisRotatePoint double_epsilon [0; 0; 0] [2; 3; 4]) 2 + 1 <> 0).
  { rewrite Hrot. unfold rd. simpl. lra. }
  pose proof (pinhole_residual_formula double_epsilon
                1000 500 500 0 0 0 0 0 1 2 3 4 7 9 Hz) as Hcall.
  rewrite Hrot in Hcall. exact Hcall.
Defined.

(** C7: the end-to-end example.  Identity rotation, translation
    [(0,0,1)], point [(0,0,0)], intrinsics [1000, 500, 500]: the
    camera-space point is [(0,0,1)], the normalized coordinates are
    [(0,0)], the predicted pixel is [(500,500)]; the residual is [(0,0)]
    for the observation [(500,500)] and [(-10,0)] for [(510,500)]. *)
Theorem pinhole_end_to_end_example (eps : nonnegreal) :
  Pinhole.pos_proj eps [0; 0; 0; 0; 0; 1] [0; 0; 0] = [0; 0; 1]
  /\ Pinhole.undistorted eps [0; 0; 0; 0; 0; 1] [0; 0; 0] = (0, 0)
  /\ Pinhole.projected eps [1000; 500; 500] [0; 0; 0; 0; 0; 1] [0; 0; 0]
     = (500, 500)
  /\ Pinhole.call (Pinhole.make [500; 500]) eps
       [1000; 500; 500] [0; 0; 0; 0; 0; 1] [0; 0; 0] = ([0; 0], true)
  /\ Pinhole.call (Pinhole.make [510; 500]) eps
       [1000; 500; 500] [0; 0; 0; 0; 0; 1] [0; 0; 0] = ([-10; 0], true).
Proof.
  assert (Hpos : Pinhole.pos_proj eps [0; 0; 0; 0; 0; 1] [0; 0; 0] = [0; 0; 1]).
  { unfold Pinhole.pos_proj. rewrite rotate_zero_axis by reflexivity.
    unfold rd, offset. simpl. apply point_eq; lra. }
  assert (Hund : Pinhole.undistorted eps [0; 0; 0; 0; 0; 1] [0; 0; 0] = (0, 0)).
  { unfold Pinhole.undistorted. rewrite Hpos. unfold rd. simpl.
    f_equal; lra. }
  assert (Hprj :
    Pinhole.projected eps [1000; 500; 500] [0; 0; 0; 0; 0; 1] [0; 0; 0]
    = (500, 500)).
  { unfold Pinhole.projected. rewrite Hund.
    unfold rd, Pinhole.OFFSET_FOCAL_LENGTH, Pinhole.OFFSET_PRINCIPAL_POINT_X,
      Pinhole.OFFSET_PRINCIPAL_POINT_Y. simpl. f_equal; lra. }
  repeat split; try assumption.
  - unfold Pinhole.call. rewrite Hprj. unfold Pinhole.make, rd. simpl.
    apply residuals_eq; lra.
  - unfold Pinhole.call. rewrite Hprj. unfold Pinhole.make, rd. simpl.
    apply residuals_eq; lra.
Qed.

(** ** Distortion degeneracy *)

(** The three functors with a plain pose share the pose transform and the
    perspective division, line for line. *)
Lemma k1_undistorted (eps : nonnegreal) (cam_Rt pos_3dpoint : block) :
  RadialK1.undistorted eps cam_Rt pos_3dpoint
  = Pinhole.undistorted eps cam_Rt pos_3dpoint.
Proof. reflexivity. Qed.

Lemma k3_undistorted (eps : nonnegreal) (cam_Rt pos_3dpoint : block) :
  RadialK3.undistorted eps cam_Rt pos_3dpoint
  = Pinhole.undistorted eps cam_Rt pos_3dpoint.
Proof. reflexivity. Qed.

(** C4: with [k1 = 0] the Radial-K1 functor on [focal, ppx, ppy, 0]
    produces the residuals of the pinhole functor on [focal, ppx, ppy],
    for the same pose, point (of non-zero depth) and observation. *)
Theorem radial_k1_zero_is_pinhole (eps : nonnegreal)
    (focal ppx ppy : R) (cam_Rt pos_3dpoint pos_2dpoint : block) :
  rd (Pinhole.pos_proj eps cam_Rt pos_3dpoint) 2 <> 0 ->
  RadialK1.call (RadialK1.make pos_2dpoint) eps
    [focal; ppx; ppy; 0] cam_Rt pos_3dpoint
  = Pinhole.call (Pinhole.make pos_2dpoint) eps
      [focal; ppx; ppy] cam_Rt pos_3dpoint.
Proof.
  intros _.
  unfold RadialK1.call, RadialK1.projected, RadialK1.distorted,
    RadialK1.r_coeff, Pinhole.call, Pinhole.projected.
  rewrite k1_undistorted.
  destruct (Pinhole.undistorted eps cam_Rt pos_3dpoint) as [x_u y_u].
  apply residuals_eq; cbn; ring.
Qed.

(** The pose transform under the identity rotation is the translation. *)
Lemma pinhole_pos_proj_identity_rotation (eps : nonnegreal)
    (t0 t1 t2 X Y Z : R) :
  Pinhole.pos_proj eps [0; 0; 0; t0; t1; t2] [X; Y; Z]
  = [X + t0; Y + t1; Z + t2].
Proof.
  unfold Pinhole.pos_proj. rewrite rotate_zero_axis by reflexivity.
  reflexivity.
Qed.

Lemma radial_k1_zero_is_pinhole_witness :
  rd (Pinhole.pos_proj double_epsilon [0; 0; 0; 0; 0; 1] [2; 3; 4]) 2 <> 0
  /\ RadialK1.call (RadialK1.make [7; 9]) double_epsilon
       [1000; 500; 500; 0] [0; 0; 0; 0; 0; 1] [2; 3; 4]
     = Pinhole.call (Pinhole.make [7; 9]) double_epsilon
         [1000; 500; 500] [0; 0; 0; 0; 0; 1] [2; 3; 4].
Proof.
  assert (Hz :
    rd (Pinhole.pos_proj double_epsilon [0; 0; 0; 0; 0; 1] [2; 3; 4]) 2 <> 0).
  { rewrite pinhole_pos_proj_identity_rotation. unfold rd. simpl. lra. }
  split; [exact Hz |].
  exact (radial_k1_zero_is_pinhole double_epsilon 1000 500 500
           [0; 0; 0; 0; 0; 1] [2; 3; 4] [7; 9] Hz).
Defined.

(** C5: with [k1 = k2 = k3 = 0] the Radial-K3 functor produces the
    residuals of the pinhole functor; with [k2 = k3 = 0] those of the
    Radial-K1 functor on [focal, ppx, ppy, k1]; and the coefficient it
    multiplies the normalized coordinates by is
    [1 + k1 r2 + k2 r2^2 + k3 r2^3] with [r2 = xu^2 + yu^2]. *)
Theorem radial_k3_degenerate (eps : nonnegreal)
    (focal ppx ppy k1 k2 k3 : R) (cam_Rt pos_3dpoint pos_2dpoint : block) :
  rd (Pinhole.pos_proj eps cam_Rt pos_3dpoint) 2 <> 0 ->
  RadialK3.call (RadialK3.make pos_2dpoint) eps
    [focal; ppx; ppy; 0; 0; 0] cam_Rt pos_3dpoint
  = Pinhole.call (Pinhole.make pos_2dpoint) eps
      [focal; ppx; ppy] cam_Rt pos_3dpoint
  /\ RadialK3.call (RadialK3.make pos_2dpoint) eps
       [focal; ppx; ppy; k1; 0; 0] cam_Rt pos_3dpoint
     = RadialK1.call (RadialK1.make pos_2dpoint) eps
         [focal; ppx; ppy; k1] cam_Rt pos_3dpoint
  /\ (forall xu yu : R,
        RadialK3.r_coeff [focal; ppx; ppy; k1; k2; k3] xu yu
        = 1 + k1 * (xu ^ 2 + yu ^ 2) + k2 * (xu ^ 2 + yu ^ 2) ^ 2
            + k3 * (xu ^ 2 + yu ^ 2) ^ 3)
  /\ (let xu := fst (RadialK3.undistorted eps cam_Rt pos_3dpoint) in
      let yu := snd (RadialK3.undistorted eps cam_Rt pos_3dpoint) in
      let K := [focal; ppx; ppy; k1; k2; k3] in
      RadialK3.distorted eps K cam_Rt pos_3dpoint
      = (xu * RadialK3.r_coeff K xu yu, yu * RadialK3.r_coeff K xu yu)).
Proof.
  intros _. split; [| split; [| split]].
  - unfold RadialK3.call, RadialK3.projected, RadialK3.distorted,
      RadialK3.r_coeff, Pinhole.call, Pinhole.projected.
    rewrite k3_undistorted.
    destruct (Pinhole.undistorted eps cam_Rt pos_3dpoint) as [x_u y_u].
    apply residuals_eq; cbn; ring.
  - unfold RadialK3.call, RadialK3.projected, RadialK3.distorted,
      RadialK3.r_coeff, RadialK1.call, RadialK1.projected,
      RadialK1.distorted, RadialK1.r_coeff.
    rewrite k3_undistorted.
    change (RadialK1.undistorted eps cam_Rt pos_3dpoint)
      with (Pinhole.undistorted eps cam_Rt pos_3dpoint).
    destruct (Pinhole.undistorted eps cam_Rt pos_3dpoint) as [x_u y_u].
    apply residuals_eq; cbn; ring.
  - intros xu yu. unfold RadialK3.r_coeff. cbn. ring.
  - unfold RadialK3.distorted.
    destruct (RadialK3.undistorted eps cam_Rt pos_3dpoint) as [x_u y_u].
    reflexivity.
Qed.

Lemma radial_k3_degenerate_witness :
  rd (Pinhole.pos_proj double_epsilon [0; 0; 0; 0; 0; 1] [2; 3; 4]) 2 <> 0
  /\ RadialK3.call (RadialK3.make [7; 9]) double_epsilon
       [1000; 500; 500; 0; 0; 0] [0; 0; 0; 0; 0; 1] [2; 3; 4]
     = Pinhole.call (Pinhole.make [7; 9]) double_epsilon
         [1000; 500; 500] [0; 0; 0; 0; 0; 1] [2; 3; 4].
Proof.
  assert (Hz :
    rd (Pinhole.pos_proj double_epsilon [0; 0; 0; 0; 0; 1] [2; 3; 4]) 2 <> 0).
  { rewrite pinhole_pos_proj_identity_rotation. unfold rd. simpl. lra. }
  split; [exact Hz |].
  exact (proj1 (radial_k3_degenerate double_epsilon 1000 500 500 (/ 10) 0 0
                  [0; 0; 0; 0; 0; 1] [2; 3; 4] [7; 9] Hz)).
Defined.

(** ** Zero residual at the predicted pixel *)

(** C6: for each of the four functors, for every pose, intrinsics block
    and point of non-zero projected depth, the functor constructed with
    the pixel it predicts for those inputs as its observation writes the
    residual [(0, 0)]. *)
Theorem exact_projection_zero_residual (eps : nonnegreal) :
  (forall cam_K cam_Rt pos_3dpoint : block,
     rd (Pinhole.pos_proj eps cam_Rt pos_3dpoint) 2 <> 0 ->
     let p := Pinhole.projected eps cam_K cam_Rt pos_3dpoint in
     Pinhole.call (Pinhole.make [fst p; snd p]) eps cam_K cam_Rt pos_3dpoint
     = ([0; 0], true))
  /\ (forall cam_K cam_Rt pos_3dpoint : block,
        rd (RadialK1.pos_proj eps cam_Rt pos_3dpoint) 2 <> 0 ->
        let p := RadialK1.projected eps cam_K cam_Rt pos_3dpoint in
        RadialK1.call (RadialK1.make [fst p; snd p]) eps
          cam_K cam_Rt pos_3dpoint
        = ([0; 0], true))
  /\ (forall cam_K cam_Rt pos_3dpoint : block,
        rd (RadialK3.pos_proj eps cam_Rt pos_3dpoint) 2 <> 0 ->
        let p := RadialK3.projected eps cam_K cam_Rt pos_3dpoint in
        RadialK3.call (RadialK3.make [fst p; snd p]) eps
          cam_K cam_Rt pos_3dpoint
        = ([0; 0], true))
  /\ (forall cam_K cam_Rt pos_3dpoint : block,
        rd (Rig.pos_proj eps cam_K cam_Rt pos_3dpoint) 2 <> 0 ->
        let p := Rig.projected eps cam_K cam_Rt pos_3dpoint in
        Rig.call (Rig.make [fst p; snd p]) eps cam_K cam_Rt pos_3dpoint
        = ([0; 0], true)).
Proof.
  split; [| split; [| split]];
    intros cam_K cam_Rt pos_3dpoint _ p; subst p.
  - unfold Pinhole.call.
    destruct (Pinhole.projected eps cam_K cam_Rt pos_3dpoint) as [px py].
    apply residuals_eq; cbn; ring.
  - unfold RadialK1.call.
    destruct (RadialK1.projected eps cam_K cam_Rt pos_3dpoint) as [px py].
    apply residuals_eq; cbn; ring.
  - unfold RadialK3.call.
    destruct (RadialK3.projected eps cam_K cam_Rt pos_3dpoint) as [px py].
    apply residuals_eq; cbn; ring.
  - unfold Rig.call.
    destruct (Rig.projected eps cam_K cam_Rt pos_3dpoint) as [px py].
    apply residuals_eq; cbn; ring.
Qed.

(** ** The rig functor *)

(** With a zero sub-pose the camera-space point of the rig functor is the
    point rotated by the platform rotation: nothing is added to it. *)
Lemma rig_pos_proj_identity_subpose (eps : nonnegreal)
    (focal ppx ppy : R) (cam_Rt pos_3dpoint : block) :
  Rig.pos_proj eps [focal; ppx; ppy; 0; 0; 0; 0; 0; 0] cam_Rt pos_3dpoint
  = [ rd (ceres.AngleAxisRotatePoint eps cam_Rt pos_3dpoint) 0;
      rd (ceres.AngleAxisRotatePoint eps cam_Rt pos_3dpoint) 1;
      rd (ceres.AngleAxisRotatePoint eps cam_Rt pos_3dpoint) 2 ].
Proof.
  unfold Rig.pos_proj.
  rewrite (rotate_zero_axis eps (offset _ 3)) by reflexivity.
  rewrite (rotate_zero_point eps cam_Rt (offset _ 6)) by reflexivity.
  cbn. apply point_eq; ring.
Qed.

(** The camera-space point the spec words and the one the code computes
    differ by the platform translation, entry by entry. *)
Lemma rig_pos_proj_spec_vs_code (eps : nonnegreal)
    (cam_K cam_Rt pos_3dpoint : block) :
  Rig_pos_proj_spec eps cam_K cam_Rt pos_3dpoint
  = [ rd (Rig.pos_proj eps cam_K cam_Rt pos_3dpoint) 0 + rd cam_Rt 3;
      rd (Rig.pos_proj eps cam_K cam_Rt pos_3dpoint) 1 + rd cam_Rt 4;
      rd (Rig.pos_proj eps cam_K cam_Rt pos_3dpoint) 2 + rd cam_Rt 5 ].
Proof.
  unfold Rig_pos_proj_spec, Rig.pos_proj.
  assert (H3 : rd (offset cam_Rt 3) 0 = rd cam_Rt 3).
  { unfold rd, offset. destruct cam_Rt as [| a [| b [| c l]]]; reflexivity. }
  assert (H4 : rd (offset cam_Rt 3) 1 = rd cam_Rt 4).
  { unfold rd, offset. destruct cam_Rt as [| a [| b [| c l]]]; reflexivity. }
  assert (H5 : rd (offset cam_Rt 3) 2 = rd cam_Rt 5).
  { unfold rd, offset. destruct cam_Rt as [| a [| b [| c l]]]; reflexivity. }
  rewrite H3, H4, H5.
  set (rotated := ceres.AngleAxisRotatePoint eps (offset cam_K 3) _).
  set (rig_trans := ceres.AngleAxisRotatePoint eps cam_Rt _).
  set (subpose_t := offset cam_K 6).
  unfold rd. cbn [nth]. apply point_eq; ring.
Qed.

(** C1, evaluated where it fails: zero sub-pose, identity platform
    rotation, platform translation [(1,0,0)], point [(0,0,1)], intrinsics
    focal 1 and principal point [(0,0)], observation [(0,0)].  Both
    functors see depth 1; the rig functor writes [(0,0)], the pinhole
    functor on the platform pose writes [(1,0)]. *)
Theorem rig_identity_subpose_loses_translation (eps : nonnegreal) :
  rd (Rig.pos_proj eps [1; 0; 0; 0; 0; 0; 0; 0; 0]
        [0; 0; 0; 1; 0; 0] [0; 0; 1]) 2 = 1
  /\ rd (Pinhole.pos_proj eps [0; 0; 0; 1; 0; 0] [0; 0; 1]) 2 = 1
  /\ Rig.call (Rig.make [0; 0]) eps [1; 0; 0; 0; 0; 0; 0; 0; 0]
       [0; 0; 0; 1; 0; 0] [0; 0; 1] = ([0; 0], true)
  /\ Pinhole.call (Pinhole.make [0; 0]) eps [1; 0; 0]
       [0; 0; 0; 1; 0; 0] [0; 0; 1] = ([1; 0], true).
Proof.
  assert (Hrig : Rig.pos_proj eps [1; 0; 0; 0; 0; 0; 0; 0; 0]
                   [0; 0; 0; 1; 0; 0] [0; 0; 1] = [0; 0; 1]).
  { rewrite rig_pos_proj_identity_subpose.
    rewrite rotate_zero_axis by reflexivity. reflexivity. }
  assert (Hpin : Pinhole.pos_proj eps [0; 0; 0; 1; 0; 0] [0; 0; 1]
                 = [0 + 1; 0 + 0; 1 + 0]).
  { apply pinhole_pos_proj_identity_rotation. }
  split; [| split; [| split]].
  - rewrite Hrig. reflexivity.
  - rewrite Hpin. cbn. ring.
  - unfold Rig.call, Rig.projected, Rig.undistorted. rewrite Hrig.
    cbn. apply residuals_eq; field.
  - unfold Pinhole.call, Pinhole.projected, Pinhole.undistorted.
    rewrite Hpin. cbn. apply residuals_eq; field.
Qed.

(** C2, evaluated where it fails: at the same input the code's
    camera-space point is [(0,0,1)], while the composition the claim
    describes, platform translation included, is [(1,0,1)]. *)
Theorem rig_camera_point_omits_platform_translation (eps : nonnegreal) :
  Rig.pos_proj eps [1; 0; 0; 0; 0; 0; 0; 0; 0] [0; 0; 0; 1; 0; 0] [0; 0; 1]
  = [0; 0; 1]
  /\ Rig_pos_proj_spec eps [1; 0; 0; 0; 0; 0; 0; 0; 0]
       [0; 0; 0; 1; 0; 0] [0; 0; 1]
     = [1; 0; 1]
  /\ Rig.pos_proj eps [1; 0; 0; 0; 0; 0; 0; 0; 0] [0; 0; 0; 1; 0; 0] [0; 0; 1]
     <> Rig_pos_proj_spec eps [1; 0; 0; 0; 0; 0; 0; 0; 0]
          [0; 0; 0; 1; 0; 0] [0; 0; 1].
Proof.
  assert (Hrig : Rig.pos_proj eps [1; 0; 0; 0; 0; 0; 0; 0; 0]
                   [0; 0; 0; 1; 0; 0] [0; 0; 1] = [0; 0; 1]).
  { rewrite rig_pos_proj_identity_subpose.
    rewrite rotate_zero_axis by reflexivity. reflexivity. }
  assert (Hspec : Rig_pos_proj_spec eps [1; 0; 0; 0; 0; 0; 0; 0; 0]
                    [0; 0; 0; 1; 0; 0] [0; 0; 1] = [1; 0; 1]).
  { rewrite rig_pos_proj_spec_vs_code, Hrig. cbn. apply point_eq; ring. }
  split; [exact Hrig | split; [exact Hspec |]].
  rewrite Hrig, Hspec. intros Heq. injection Heq as Heq. lra.
Qed.

(** The rotation primitive reads the first three entries of its
    axis-angle argument and nothing else. *)
Lemma rotate_reads_three_axis_entries (eps : nonnegreal)
    (angle_axis angle_axis' pt : block) :
  rd angle_axis 0 = rd angle_axis' 0 ->
  rd angle_axis 1 = rd angle_axis' 1 ->
  rd angle_axis 2 = rd angle_axis' 2 ->
  ceres.AngleAxisRotatePoint eps angle_axis pt
  = ceres.AngleAxisRotatePoint eps angle_axis' pt.
Proof.
  intros H0 H1 H2. unfold ceres.AngleAxisRotatePoint, ceres.DotProduct.
  rewrite H0, H1, H2. reflexivity.
Qed.

(** C10: two extrinsics blocks that agree on the rotation entries 0-2,
    whatever their translation entries 3-5, give the rig functor the same
    residuals for the same intrinsics, point and observation. *)
Theorem rig_ignores_platform_translation (eps : nonnegreal)
    (f : Rig.t) (cam_K cam_Rt cam_Rt' pos_3dpoint : block) :
  rd cam_Rt 0 = rd cam_Rt' 0 ->
  rd cam_Rt 1 = rd cam_Rt' 1 ->
  rd cam_Rt 2 = rd cam_Rt' 2 ->
  Rig.call f eps cam_K cam_Rt pos_3dpoint
  = Rig.call f eps cam_K cam_Rt' pos_3dpoint.
Proof.
  intros H0 H1 H2.
  assert (Hpos : Rig.pos_proj eps cam_K cam_Rt pos_3dpoint
                 = Rig.pos_proj eps cam_K cam_Rt' pos_3dpoint).
  { unfold Rig.pos_proj.
    rewrite (rotate_reads_three_axis_entries eps cam_Rt cam_Rt' pos_3dpoint)
      by assumption.
    rewrite (rotate_reads_three_axis_entries eps cam_Rt cam_Rt' (offset cam_K 6))
      by assumption.
    reflexivity. }
  unfold Rig.call, Rig.projected, Rig.undistorted.
  rewrite Hpos. reflexivity.
Qed.

Lemma rig_ignores_platform_translation_witness :
  Rig.call (Rig.make [7; 9]) double_epsilon
    [1000; 500; 500; 0; 0; 1; 1; 2; 3] [0; 0; 1; 1; 2; 3] [2; 3; 4]
  = Rig.call (Rig.make [7; 9]) double_epsilon
      [1000; 500; 500; 0; 0; 1; 1; 2; 3] [0; 0; 1; 7; 8; 9] [2; 3; 4].
Proof.
  exact (rig_ignores_platform_translation double_epsilon (Rig.make [7; 9])
           [1000; 500; 500; 0; 0; 1; 1; 2; 3]
           [0; 0; 1; 1; 2; 3] [0; 0; 1; 7; 8; 9] [2; 3; 4]
           eq_refl eq_refl eq_refl).
Defined.

(** ** The success flag *)

(** C8: on every input, zero depth included, [operator()] of each of the
    four functors returns [true]. *)
Theorem functors_always_return_true (eps : nonnegreal)
    (cam_K cam_Rt pos_3dpoint : block) :
  (forall f, snd (Pinhole.call f eps cam_K cam_Rt pos_3dpoint) = true)
  /\ (forall f, snd (RadialK1.call f eps cam_K cam_Rt pos_3dpoint) = true)
  /\ (forall f, snd (RadialK3.call f eps cam_K cam_Rt pos_3dpoint) = true)
  /\ (forall f, snd (Rig.call f eps cam_K cam_Rt pos_3dpoint) = true).
Proof.
  split; [| split; [| split]]; intros f.
  - unfold Pinhole.call.
    destruct (Pinhole.projected eps cam_K cam_Rt pos_3dpoint); reflexivity.
  - unfold RadialK1.call.
    destruct (RadialK1.projected eps cam_K cam_Rt pos_3dpoint); reflexivity.
  - unfold RadialK3.call.
    destruct (RadialK3.projected eps cam_K cam_Rt pos_3dpoint); reflexivity.
  - unfold Rig.call.
    destruct (Rig.projected eps cam_K cam_Rt pos_3dpoint); reflexivity.
Qed.

Lemma exact_projection_zero_residual_witness :
  (rd (Pinhole.pos_proj double_epsilon [0; 0; 0; 0; 0; 1] [2; 3; 4]) 2 <> 0
   /\ rd (Rig.pos_proj double_epsilon [1000; 500; 500; 0; 0; 0; 0; 0; 0]
            [0; 0; 0; 0; 0; 1] [2; 3; 4]) 2 <> 0)
  /\ Pinhole.call
       (Pinhole.make
          [fst (Pinhole.projected double_epsilon [1000; 500; 500]
                  [0; 0; 0; 0; 0; 1] [2; 3; 4]);
           snd (Pinhole.projected double_epsilon [1000; 500; 500]
                  [0; 0; 0; 0; 0; 1] [2; 3; 4])])
       double_epsilon [1000; 500; 500] [0; 0; 0; 0; 0; 1] [2; 3; 4]
     = ([0; 0], true)
  /\ Rig.call
       (Rig.make
          [fst (Rig.projected double_epsilon [1000; 500; 500; 0; 0; 0; 0; 0; 0]
                  [0; 0; 0; 0; 0; 1] [2; 3; 4]);
           snd (Rig.projected double_epsilon [1000; 500; 500; 0; 0; 0; 0; 0; 0]
                  [0; 0; 0; 0; 0; 1] [2; 3; 4])])
       double_epsilon [1000; 500; 500; 0; 0; 0; 0; 0; 0]
       [0; 0; 0; 0; 0; 1] [2; 3; 4]
     = ([0; 0], true).
Proof.
  assert (Hpin :
    rd (Pinhole.pos_proj double_epsilon [0; 0; 0; 0; 0; 1] [2; 3; 4]) 2 <> 0).
  { rewrite pinhole_pos_proj_identity_rotation. unfold rd. simpl. lra. }
  assert (Hrig :
    rd (Rig.pos_proj double_epsilon [1000; 500; 500; 0; 0; 0; 0; 0; 0]
          [0; 0; 0; 0; 0; 1] [2; 3; 4]) 2 <> 0).
  { rewrite rig_pos_proj_identity_subpose.
    rewrite rotate_zero_axis by reflexivity. unfold rd. simpl. lra. }
  split; [split; [exact Hpin | exact Hrig] |].
  split.
  - exact (proj1 (exact_projection_zero_residual double_epsilon)
             [1000; 500; 500] [0; 0; 0; 0; 0; 1] [2; 3; 4] Hpin).
  - exact (proj2 (proj2 (proj2
             (exact_projection_zero_residual double_epsilon)))
             [1000; 500; 500; 0; 0; 0; 0; 0; 0] [0; 0; 0; 0; 0; 1] [2; 3; 4]
             Hrig).
Defined.

(** ** The rotation primitive *)

Section RotationAboutZ.

Variable eps : nonnegreal.

(** The squared angle of a rotation about the Z axis. *)
Lemma theta2_about_z (theta : R) :
  ceres.DotProduct [0; 0; theta] [0; 0; theta] = theta * theta.
Proof. unfold ceres.DotProduct. cbn. ring. Qed.

(** Inside the guard the primitive returns the first-order approximation
    [p + w x p], which for [(1,0,0)] and the axis [(0,0,theta)] is
    [(1, theta, 0)]. *)
Lemma rotate_about_z_inside_guard (theta : R) :
  theta * theta <= eps ->
  ceres.AngleAxisRotatePoint eps [0; 0; theta] [1; 0; 0] = [1; theta; 0].
Proof.
  intros Hin. unfold ceres.AngleAxisRotatePoint.
  rewrite theta2_about_z.
  destruct (Rlt_dec eps (theta * theta)) as [Hlt | _]; [lra |].
  cbn. apply point_eq; ring.
Qed.


(** The approximation is not the exact rotation: [sin theta < theta] for
    every positive [theta]. *)
Lemma rotate_about_z_inexact_inside_guard (theta : R) :
  0 < theta -> theta * theta <= eps ->
  ceres.AngleAxisRotatePoint eps [0; 0; theta] [1; 0; 0]
  <> [cos theta; sin theta; 0].
Proof.
  intros Hpos Hin. rewrite (rotate_about_z_inside_guard theta Hin).
  intros Heq. injection Heq as Hcos Hsin.
  pose proof (sin_lt_x theta Hpos) as Hlt. lra.
Qed.

End RotationAboutZ.


(** ** What the rig functor does compute *)

(** With a zero sub-pose the rig functor is the pinhole functor on the
    platform rotation alone: whatever the platform translation, its
    residuals are those of the pinhole functor on the same rotation and
    the zero translation. *)
Theorem rig_identity_subpose_is_pinhole_without_translation
    (eps : nonnegreal) (focal ppx ppy r0 r1 r2 t0 t1 t2 : R)
    (pos_3dpoint pos_2dpoint : block) :
  Rig.call (Rig.make pos_2dpoint) eps
    [focal; ppx; ppy; 0; 0; 0; 0; 0; 0] [r0; r1; r2; t0; t1; t2] pos_3dpoint
  = Pinhole.call (Pinhole.make pos_2dpoint) eps
      [focal; ppx; ppy] [r0; r1; r2; 0; 0; 0] pos_3dpoint.
Proof.
  unfold Rig.call, Rig.projected, Rig.undistorted,
    Pinhole.call, Pinhole.projected, Pinhole.undistorted.
  rewrite rig_pos_proj_identity_subpose.
  unfold Pinhole.pos_proj.
  change (ceres.AngleAxisRotatePoint eps [r0; r1; r2; 0; 0; 0] pos_3dpoint)
    with (ceres.AngleAxisRotatePoint eps [r0; r1; r2; t0; t1; t2] pos_3dpoint).
  set (rotated :=
    ceres.AngleAxisRotatePoint eps [r0; r1; r2; t0; t1; t2] pos_3dpoint).
  cbn. rewrite !Rplus_0_r. reflexivity.
Qed.

(** On every input, the camera-space point section 4.4 of the spec
    describes is the one the code computes plus the platform translation
    [cam_Rt[3..5]]. *)
Theorem rig_spec_point_is_code_point_plus_platform_translation
    (eps : nonnegreal) (cam_K cam_Rt pos_3dpoint : block) :
  rd (Rig_pos_proj_spec eps cam_K cam_Rt pos_3dpoint) 0
  = rd (Rig.pos_proj eps cam_K cam_Rt pos_3dpoint) 0 + rd cam_Rt 3
  /\ rd (Rig_pos_proj_spec eps cam_K cam_Rt pos_3dpoint) 1
     = rd (Rig.pos_proj eps cam_K cam_Rt pos_3dpoint) 1 + rd cam_Rt 4
  /\ rd (Rig_pos_proj_spec eps cam_K cam_Rt pos_3dpoint) 2
     = rd (Rig.pos_proj eps cam_K cam_Rt pos_3dpoint) 2 + rd cam_Rt 5.
Proof.
  rewrite rig_pos_proj_spec_vs_code. repeat split.
Qed.

(** ** How the rotation primitive acts on the point

    Both branches of the primitive are linear in the point; the functors
    inherit their invariances from that. *)

Section RotationLinear.

Variable eps : nonnegreal.

(** The primitive reads three entries of each argument. *)
Lemma rotate_reads_three_entries (angle_axis angle_axis' pt pt' : block) :
  rd angle_axis 0 = rd angle_axis' 0 ->
  rd angle_axis 1 = rd angle_axis' 1 ->
  rd angle_axis 2 = rd angle_axis' 2 ->
  rd pt 0 = rd pt' 0 -> rd pt 1 = rd pt' 1 -> rd pt 2 = rd pt' 2 ->
  ceres.AngleAxisRotatePoint eps angle_axis pt
  = ceres.AngleAxisRotatePoint eps angle_axis' pt'.
Proof.
  intros A0 A1 A2 P0 P1 P2.
  unfold ceres.AngleAxisRotatePoint, ceres.DotProduct.
  rewrite A0, A1, A2, P0, P1, P2. reflexivity.
Qed.

(** Its result has exactly three entries. *)
Lemma rotate_eta (angle_axis pt : block) :
  ceres.AngleAxisRotatePoint eps angle_axis pt
  = [ rd (ceres.AngleAxisRotatePoint eps angle_axis pt) 0;
      rd (ceres.AngleAxisRotatePoint eps angle_axis pt) 1;
      rd (ceres.AngleAxisRotatePoint eps angle_axis pt) 2 ].
Proof.
  unfold ceres.AngleAxisRotatePoint.
  destruct (Rlt_dec eps (ceres.DotProduct angle_axis angle_axis));
    reflexivity.
Qed.

(** Scaling the point scales the rotated point. *)
Lemma rotate_scale (s : R) (angle_axis pt pt' : block) :
  rd pt' 0 = s * rd pt 0 -> rd pt' 1 = s * rd pt 1 ->
  rd pt' 2 = s * rd pt 2 ->
  ceres.AngleAxisRotatePoint eps angle_axis pt'
  = [ s * rd (ceres.AngleAxisRotatePoint eps angle_axis pt) 0;
      s * rd (ceres.AngleAxisRotatePoint eps angle_axis pt) 1;
      s * rd (ceres.AngleAxisRotatePoint eps angle_axis pt) 2 ].
Proof.
  intros H0 H1 H2. unfold ceres.AngleAxisRotatePoint.
  destruct (Rlt_dec eps (ceres.DotProduct angle_axis angle_axis));
    cbv zeta; rewrite H0, H1, H2;
    set (x := rd pt 0); set (y := rd pt 1); set (z := rd pt 2);
    set (a0 := rd angle_axis 0); set (a1 := rd angle_axis 1);
    set (a2 := rd angle_axis 2);
    unfold rd; cbn [nth]; apply point_eq; unfold Rdiv; ring.
Qed.

(** Rotating a sum of points gives the sum of the rotated points. *)
Lemma rotate_add (angle_axis p q pq : block) :
  rd pq 0 = rd p 0 + rd q 0 -> rd pq 1 = rd p 1 + rd q 1 ->
  rd pq 2 = rd p 2 + rd q 2 ->
  ceres.AngleAxisRotatePoint eps angle_axis pq
  = [ rd (ceres.AngleAxisRotatePoint eps angle_axis p) 0
      + rd (ceres.AngleAxisRotatePoint eps angle_axis q) 0;
      rd (ceres.AngleAxisRotatePoint eps angle_axis p) 1
      + rd (ceres.AngleAxisRotatePoint eps angle_axis q) 1;
      rd (ceres.AngleAxisRotatePoint eps angle_axis p) 2
      + rd (ceres.AngleAxisRotatePoint eps angle_axis q) 2 ].
Proof.
  intros H0 H1 H2. unfold ceres.AngleAxisRotatePoint.
  destruct (Rlt_dec eps (ceres.DotProduct angle_axis angle_axis));
    cbv zeta; rewrite H0, H1, H2;
    set (x := rd p 0); set (y := rd p 1); set (z := rd p 2);
    set (x' := rd q 0); set (y' := rd q 1); set (z' := rd q 2);
    set (a0 := rd angle_axis 0); set (a1 := rd angle_axis 1);
    set (a2 := rd angle_axis 2);
    unfold rd; cbn [nth]; apply point_eq; unfold Rdiv; ring.
Qed.

End RotationLinear.

(** ** Reads stay inside the documented arity *)

(** Two blocks with the same first [n] entries are read alike below [n]. *)
Lemma rd_firstn (n i : nat) (a b : block) :
  firstn n a = firstn n b -> (i < n)%nat -> rd a i = rd b i.
Proof.
  intros Heq Hlt. unfold rd.
  pose proof (nth_firstn n a i 0) as Ha.
  pose proof (nth_firstn n b i 0) as Hb.
  apply Nat.ltb_lt in Hlt. rewrite Hlt in Ha, Hb.
  rewrite <- Ha, <- Hb, Heq. reflexivity.
Qed.

(** [(&p[k])[i]] is [p[k + i]]. *)
Lemma rd_offset (k i : nat) (p : block) :
  rd (offset p k) i = rd p (k + i).
Proof. unfold rd, offset. apply nth_skipn. Qed.

(** The pose transform of the plain-pose functors reads six extrinsics
    and three point entries. *)
Lemma pinhole_pos_proj_frame (eps : nonnegreal)
    (cam_Rt cam_Rt' pos_3dpoint pos_3dpoint' : block) :
  firstn 6 cam_Rt = firstn 6 cam_Rt' ->
  firstn 3 pos_3dpoint = firstn 3 pos_3dpoint' ->
  Pinhole.pos_proj eps cam_Rt pos_3dpoint
  = Pinhole.pos_proj eps cam_Rt' pos_3dpoint'.
Proof.
  intros HRt HX. unfold Pinhole.pos_proj.
  rewrite (rotate_reads_three_entries eps cam_Rt cam_Rt'
             pos_3dpoint pos_3dpoint')
    by (first [apply (rd_firstn 6 _ _ _ HRt) | apply (rd_firstn 3 _ _ _ HX)];
        lia).
  rewrite !rd_offset.
  rewrite (rd_firstn 6 (3 + 0) _ _ HRt), (rd_firstn 6 (3 + 1) _ _ HRt),
    (rd_firstn 6 (3 + 2) _ _ HRt) by lia.
  reflexivity.
Qed.

(** The pose transform of the rig functor reads nine intrinsics, three
    extrinsics and three point entries. *)
Lemma rig_pos_proj_frame (eps : nonnegreal)
    (cam_K cam_K' cam_Rt cam_Rt' pos_3dpoint pos_3dpoint' : block) :
  firstn 9 cam_K = firstn 9 cam_K' ->
  firstn 3 cam_Rt = firstn 3 cam_Rt' ->
  firstn 3 pos_3dpoint = firstn 3 pos_3dpoint' ->
  Rig.pos_proj eps cam_K cam_Rt pos_3dpoint
  = Rig.pos_proj eps cam_K' cam_Rt' pos_3dpoint'.
Proof.
  intros HK HRt HX. unfold Rig.pos_proj.
  rewrite (rotate_reads_three_entries eps cam_Rt cam_Rt'
             pos_3dpoint pos_3dpoint')
    by (first [apply (rd_firstn 3 _ _ _ HRt) | apply (rd_firstn 3 _ _ _ HX)];
        lia).
  rewrite (rotate_reads_three_entries eps (offset cam_K 3) (offset cam_K' 3)
             (ceres.AngleAxisRotatePoint eps cam_Rt' pos_3dpoint')
             (ceres.AngleAxisRotatePoint eps cam_Rt' pos_3dpoint'))
    by (first [reflexivity
              | rewrite !rd_offset; apply (rd_firstn 9 _ _ _ HK); lia]).
  rewrite (rotate_reads_three_entries eps cam_Rt cam_Rt'
             (offset cam_K 6) (offset cam_K' 6))
    by (first [apply (rd_firstn 3 _ _ _ HRt); lia
              | rewrite !rd_offset; apply (rd_firstn 9 _ _ _ HK); lia]).
  rewrite !rd_offset.
  rewrite (rd_firstn 9 (6 + 0) _ _ HK), (rd_firstn 9 (6 + 1) _ _ HK),
    (rd_firstn 9 (6 + 2) _ _ HK) by lia.
  reflexivity.
Qed.

(** [operator()] of each functor reads only the entries its doc comment
    declares (<2,3,6,3>, <2,4,6,3>, <2,6,6,3>, <2,9,6,3>): blocks that
    agree on those entries, whatever follows them, give the same
    residuals and flag.  The rig functor reads only the first three
    extrinsics entries. *)
Theorem functors_read_declared_entries (eps : nonnegreal)
    (cam_K cam_K' cam_Rt cam_Rt' pos_3dpoint pos_3dpoint' : block) :
  firstn 3 pos_3dpoint = firstn 3 pos_3dpoint' ->
  (forall f, firstn 3 cam_K = firstn 3 cam_K' ->
     firstn 6 cam_Rt = firstn 6 cam_Rt' ->
     Pinhole.call f eps cam_K cam_Rt pos_3dpoint
     = Pinhole.call f eps cam_K' cam_Rt' pos_3dpoint')
  /\ (forall f, firstn 4 cam_K = firstn 4 cam_K' ->
        firstn 6 cam_Rt = firstn 6 cam_Rt' ->
        RadialK1.call f eps cam_K cam_Rt pos_3dpoint
        = RadialK1.call f eps cam_K' cam_Rt' pos_3dpoint')
  /\ (forall f, firstn 6 cam_K = firstn 6 cam_K' ->
        firstn 6 cam_Rt = firstn 6 cam_Rt' ->
        RadialK3.call f eps cam_K cam_Rt pos_3dpoint
        = RadialK3.call f eps cam_K' cam_Rt' pos_3dpoint')
  /\ (forall f, firstn 9 cam_K = firstn 9 cam_K' ->
        firstn 3 cam_Rt = firstn 3 cam_Rt' ->
        Rig.call f eps cam_K cam_Rt pos_3dpoint
        = Rig.call f eps cam_K' cam_Rt' pos_3dpoint').
Proof.
  intros HX. split; [| split; [| split]]; intros f HK HRt.
  - unfold Pinhole.call, Pinhole.projected, Pinhole.undistorted.
    rewrite (pinhole_pos_proj_frame eps _ _ _ _ HRt HX).
    unfold Pinhole.OFFSET_FOCAL_LENGTH, Pinhole.OFFSET_PRINCIPAL_POINT_X,
      Pinhole.OFFSET_PRINCIPAL_POINT_Y.
    rewrite (rd_firstn 3 0 _ _ HK), (rd_firstn 3 1 _ _ HK),
      (rd_firstn 3 2 _ _ HK) by lia.
    reflexivity.
  - unfold RadialK1.call, RadialK1.projected, RadialK1.distorted,
      RadialK1.r_coeff, RadialK1.undistorted.
    change (RadialK1.pos_proj eps) with (Pinhole.pos_proj eps).
    rewrite (pinhole_pos_proj_frame eps _ _ _ _ HRt HX).
    unfold RadialK1.OFFSET_FOCAL_LENGTH, RadialK1.OFFSET_PRINCIPAL_POINT_X,
      RadialK1.OFFSET_PRINCIPAL_POINT_Y, RadialK1.OFFSET_DISTO_K1.
    rewrite (rd_firstn 4 0 _ _ HK), (rd_firstn 4 1 _ _ HK),
      (rd_firstn 4 2 _ _ HK), (rd_firstn 4 3 _ _ HK) by lia.
    reflexivity.
  - unfold RadialK3.call, RadialK3.projected, RadialK3.distorted,
      RadialK3.r_coeff, RadialK3.undistorted.
    change (RadialK3.pos_proj eps) with (Pinhole.pos_proj eps).
    rewrite (pinhole_pos_proj_frame eps _ _ _ _ HRt HX).
    unfold RadialK3.OFFSET_FOCAL_LENGTH, RadialK3.OFFSET_PRINCIPAL_POINT_X,
      RadialK3.OFFSET_PRINCIPAL_POINT_Y, RadialK3.OFFSET_DISTO_K1,
      RadialK3.OFFSET_DISTO_K2, RadialK3.OFFSET_DISTO_K3.
    rewrite (rd_firstn 6 0 _ _ HK), (rd_firstn 6 1 _ _ HK),
      (rd_firstn 6 2 _ _ HK), (rd_firstn 6 3 _ _ HK),
      (rd_firstn 6 4 _ _ HK), (rd_firstn 6 5 _ _ HK) by lia.
    reflexivity.
  - unfold Rig.call, Rig.projected, Rig.undistorted.
    rewrite (rig_pos_proj_frame eps _ _ _ _ _ _ HK HRt HX).
    unfold Rig.OFFSET_FOCAL_LENGTH, Rig.OFFSET_PRINCIPAL_POINT_X,
      Rig.OFFSET_PRINCIPAL_POINT_Y.
    rewrite (rd_firstn 9 0 _ _ HK), (rd_firstn 9 1 _ _ HK),
      (rd_firstn 9 2 _ _ HK) by lia.
    reflexivity.
Qed.

Lemma functors_read_declared_entries_witness :
  Pinhole.call (Pinhole.make [7; 9]) double_epsilon
    [1000; 500; 500; 42] [0; 0; 1; 1; 2; 3; 99] [2; 3; 4; 8]
  = Pinhole.call (Pinhole.make [7; 9]) double_epsilon
      [1000; 500; 500] [0; 0; 1; 1; 2; 3] [2; 3; 4]
  /\ Rig.call (Rig.make [7; 9]) double_epsilon
       [1000; 500; 500; 0; 0; 1; 1; 2; 3; 42] [0; 0; 1; 5; 6] [2; 3; 4; 8]
     = Rig.call (Rig.make [7; 9]) double_epsilon
         [1000; 500; 500; 0; 0; 1; 1; 2; 3] [0; 0; 1] [2; 3; 4].
Proof.
  split.
  - exact (proj1 (functors_read_declared_entries double_epsilon
             [1000; 500; 500; 42] [1000; 500; 500]
             [0; 0; 1; 1; 2; 3; 99] [0; 0; 1; 1; 2; 3]
             [2; 3; 4; 8] [2; 3; 4] eq_refl)
             (Pinhole.make [7; 9]) eq_refl eq_refl).
  - exact (proj2 (proj2 (proj2 (functors_read_declared_entries double_epsilon
             [1000; 500; 500; 0; 0; 1; 1; 2; 3; 42]
             [1000; 500; 500; 0; 0; 1; 1; 2; 3]
             [0; 0; 1; 5; 6] [0; 0; 1]
             [2; 3; 4; 8] [2; 3; 4] eq_refl)))
             (Rig.make [7; 9]) eq_refl eq_refl).
Defined.

(** ** Zero residual characterises the predicted pixel *)

(** Depths used to instantiate the theorems below. *)
Lemma pinhole_depth_example :
  rd (Pinhole.pos_proj double_epsilon [0; 0; 0; 0; 0; 1] [2; 3; 4]) 2 <> 0.
Proof.
  rewrite pinhole_pos_proj_identity_rotation. unfold rd. simpl. lra.
Qed.

Lemma rig_depth_example :
  rd (Rig.pos_proj double_epsilon [1000; 500; 500; 0; 0; 0; 0; 0; 0]
        [0; 0; 0; 0; 0; 1] [2; 3; 4]) 2 <> 0.
Proof.
  rewrite rig_pos_proj_identity_subpose.
  rewrite rotate_zero_axis by reflexivity. unfold rd. simpl. lra.
Qed.

Lemma residuals_zero_iff (px py ox oy : R) :
  [px - ox; py - oy] = [0; 0] <-> (px, py) = (ox, oy).
Proof.
  split; intros Heq.
  - injection Heq as Hx Hy. f_equal; lra.
  - injection Heq as -> ->. f_equal; [| f_equal]; lra.
Qed.

(** For each functor, at non-zero depth, the residual written is
    [(0, 0)] exactly when the stored observation is the pixel the functor
    predicts: a zero residual is never produced by any other
    observation. *)
Theorem zero_residual_iff_observation_is_prediction (eps : nonnegreal)
    (cam_K cam_Rt pos_3dpoint : block) (ox oy : R) :
  (rd (Pinhole.pos_proj eps cam_Rt pos_3dpoint) 2 <> 0 ->
   (fst (Pinhole.call (Pinhole.make [ox; oy]) eps cam_K cam_Rt pos_3dpoint)
    = [0; 0]
    <-> Pinhole.projected eps cam_K cam_Rt pos_3dpoint = (ox, oy)))
  /\ (rd (RadialK1.pos_proj eps cam_Rt pos_3dpoint) 2 <> 0 ->
      (fst (RadialK1.call (RadialK1.make [ox; oy]) eps
              cam_K cam_Rt pos_3dpoint) = [0; 0]
       <-> RadialK1.projected eps cam_K cam_Rt pos_3dpoint = (ox, oy)))
  /\ (rd (RadialK3.pos_proj eps cam_Rt pos_3dpoint) 2 <> 0 ->
      (fst (RadialK3.call (RadialK3.make [ox; oy]) eps
              cam_K cam_Rt pos_3dpoint) = [0; 0]
       <-> RadialK3.projected eps cam_K cam_Rt pos_3dpoint = (ox, oy)))
  /\ (rd (Rig.pos_proj eps cam_K cam_Rt pos_3dpoint) 2 <> 0 ->
      (fst (Rig.call (Rig.make [ox; oy]) eps cam_K cam_Rt pos_3dpoint)
       = [0; 0]
       <-> Rig.projected eps cam_K cam_Rt pos_3dpoint = (ox, oy))).
Proof.
  split; [| split; [| split]]; intros _.
  - unfold Pinhole.call.
    destruct (Pinhole.projected eps cam_K cam_Rt pos_3dpoint) as [px py].
    apply residuals_zero_iff.
  - unfold RadialK1.call.
    destruct (RadialK1.projected eps cam_K cam_Rt pos_3dpoint) as [px py].
    apply residuals_zero_iff.
  - unfold RadialK3.call.
    destruct (RadialK3.projected eps cam_K cam_Rt pos_3dpoint) as [px py].
    apply residuals_zero_iff.
  - unfold Rig.call.
    destruct (Rig.projected eps cam_K cam_Rt pos_3dpoint) as [px py].
    apply residuals_zero_iff.
Qed.

Lemma zero_residual_iff_observation_is_prediction_witness :
  (fst (Pinhole.call (Pinhole.make [7; 9]) double_epsilon
          [1000; 500; 500] [0; 0; 0; 0; 0; 1] [2; 3; 4]) = [0; 0]
   <-> Pinhole.projected double_epsilon
         [1000; 500; 500] [0; 0; 0; 0; 0; 1] [2; 3; 4] = (7, 9))
  /\ (fst (Rig.call (Rig.make [7; 9]) double_epsilon
             [1000; 500; 500; 0; 0; 0; 0; 0; 0] [0; 0; 0; 0; 0; 1] [2; 3; 4])
      = [0; 0]
      <-> Rig.projected double_epsilon
            [1000; 500; 500; 0; 0; 0; 0; 0; 0] [0; 0; 0; 0; 0; 1] [2; 3; 4]
          = (7, 9)).
Proof.
  split.
  - exact (proj1 (zero_residual_iff_observation_is_prediction double_epsilon
             [1000; 500; 500] [0; 0; 0; 0; 0; 1] [2; 3; 4] 7 9)
             pinhole_depth_example).
  - exact (proj2 (proj2 (proj2
             (zero_residual_iff_observation_is_prediction double_epsilon
                [1000; 500; 500; 0; 0; 0; 0; 0; 0] [0; 0; 0; 0; 0; 1]
                [2; 3; 4] 7 9)))
             rig_depth_example).
Defined.

(** ** Scale of the scene *)

(** Scaling the point and the translation scales the camera-space point. *)
Lemma pinhole_pos_proj_scale (eps : nonnegreal)
    (s r0 r1 r2 t0 t1 t2 X Y Z : R) :
  Pinhole.pos_proj eps [r0; r1; r2; s * t0; s * t1; s * t2]
    [s * X; s * Y; s * Z]
  = [ s * rd (Pinhole.pos_proj eps [r0; r1; r2; t0; t1; t2] [X; Y; Z]) 0;
      s * rd (Pinhole.pos_proj eps [r0; r1; r2; t0; t1; t2] [X; Y; Z]) 1;
      s * rd (Pinhole.pos_proj eps [r0; r1; r2; t0; t1; t2] [X; Y; Z]) 2 ].
Proof.
  unfold Pinhole.pos_proj.
  rewrite (rotate_scale eps s _ [X; Y; Z] [s * X; s * Y; s * Z])
    by reflexivity.
  rewrite (rotate_reads_three_axis_entries eps
             [r0; r1; r2; s * t0; s * t1; s * t2] [r0; r1; r2; t0; t1; t2])
    by reflexivity.
  set (rotated :=
    ceres.AngleAxisRotatePoint eps [r0; r1; r2; t0; t1; t2] [X; Y; Z]).
  unfold rd, offset. cbn [nth skipn]. apply point_eq; ring.
Qed.

Lemma pinhole_undistorted_scale (eps : nonnegreal)
    (s r0 r1 r2 t0 t1 t2 X Y Z : R) :
  s <> 0 ->
  rd (Pinhole.pos_proj eps [r0; r1; r2; t0; t1; t2] [X; Y; Z]) 2 <> 0 ->
  Pinhole.undistorted eps [r0; r1; r2; s * t0; s * t1; s * t2]
    [s * X; s * Y; s * Z]
  = Pinhole.undistorted eps [r0; r1; r2; t0; t1; t2] [X; Y; Z].
Proof.
  intros Hs Hz. unfold Pinhole.undistorted.
  rewrite pinhole_pos_proj_scale.
  set (P := Pinhole.pos_proj eps [r0; r1; r2; t0; t1; t2] [X; Y; Z]) in *.
  change (rd [s * rd P 0; s * rd P 1; s * rd P 2] 0) with (s * rd P 0).
  change (rd [s * rd P 0; s * rd P 1; s * rd P 2] 1) with (s * rd P 1).
  change (rd [s * rd P 0; s * rd P 1; s * rd P 2] 2) with (s * rd P 2).
  f_equal; field; split; assumption.
Qed.

Lemma rig_pos_proj_scale (eps : nonnegreal)
    (s focal ppx ppy rs0 rs1 rs2 ts0 ts1 ts2 X Y Z : R) (cam_Rt : block) :
  Rig.pos_proj eps
    [focal; ppx; ppy; rs0; rs1; rs2; s * ts0; s * ts1; s * ts2]
    cam_Rt [s * X; s * Y; s * Z]
  = [ s * rd (Rig.pos_proj eps
                [focal; ppx; ppy; rs0; rs1; rs2; ts0; ts1; ts2]
                cam_Rt [X; Y; Z]) 0;
      s * rd (Rig.pos_proj eps
                [focal; ppx; ppy; rs0; rs1; rs2; ts0; ts1; ts2]
                cam_Rt [X; Y; Z]) 1;
      s * rd (Rig.pos_proj eps
                [focal; ppx; ppy; rs0; rs1; rs2; ts0; ts1; ts2]
                cam_Rt [X; Y; Z]) 2 ].
Proof.
  unfold Rig.pos_proj, offset. cbn [skipn].
  rewrite (rotate_scale eps s cam_Rt [X; Y; Z] [s * X; s * Y; s * Z])
    by reflexivity.
  rewrite (rotate_scale eps s _
             (ceres.AngleAxisRotatePoint eps cam_Rt [X; Y; Z])
             [s * rd (ceres.AngleAxisRotatePoint eps cam_Rt [X; Y; Z]) 0;
              s * rd (ceres.AngleAxisRotatePoint eps cam_Rt [X; Y; Z]) 1;
              s * rd (ceres.AngleAxisRotatePoint eps cam_Rt [X; Y; Z]) 2])
    by reflexivity.
  rewrite (rotate_scale eps s cam_Rt [ts0; ts1; ts2]
             [s * ts0; s * ts1; s * ts2])
    by reflexivity.
  rewrite (rotate_reads_three_axis_entries eps
             [rs0; rs1; rs2; s * ts0; s * ts1; s * ts2]
             [rs0; rs1; rs2; ts0; ts1; ts2])
    by reflexivity.
  set (rotated := ceres.AngleAxisRotatePoint eps
                    [rs0; rs1; rs2; ts0; ts1; ts2] _).
  set (rig_trans := ceres.AngleAxisRotatePoint eps cam_Rt [ts0; ts1; ts2]).
  unfold rd. cbn [nth]. apply point_eq; ring.
Qed.

(** The residuals do not fix the scale of the scene, nor its sign: for
    [s <> 0], scaling the 3D point and the translation by [s] (for the rig
    functor, the point and the sub-pose translation) leaves the output of
    each functor unchanged at non-zero depth.  With [s < 0] the scaled
    point lies behind the camera and is not told apart. *)
Theorem residuals_invariant_under_scene_scale (eps : nonnegreal)
    (s : R) (r0 r1 r2 t0 t1 t2 X Y Z : R) :
  s <> 0 ->
  (forall f cam_K,
     rd (Pinhole.pos_proj eps [r0; r1; r2; t0; t1; t2] [X; Y; Z]) 2 <> 0 ->
     Pinhole.call f eps cam_K [r0; r1; r2; s * t0; s * t1; s * t2]
       [s * X; s * Y; s * Z]
     = Pinhole.call f eps cam_K [r0; r1; r2; t0; t1; t2] [X; Y; Z])
  /\ (forall f cam_K,
        rd (RadialK1.pos_proj eps [r0; r1; r2; t0; t1; t2] [X; Y; Z]) 2 <> 0 ->
        RadialK1.call f eps cam_K [r0; r1; r2; s * t0; s * t1; s * t2]
          [s * X; s * Y; s * Z]
        = RadialK1.call f eps cam_K [r0; r1; r2; t0; t1; t2] [X; Y; Z])
  /\ (forall f cam_K,
        rd (RadialK3.pos_proj eps [r0; r1; r2; t0; t1; t2] [X; Y; Z]) 2 <> 0 ->
        RadialK3.call f eps cam_K [r0; r1; r2; s * t0; s * t1; s * t2]
          [s * X; s * Y; s * Z]
        = RadialK3.call f eps cam_K [r0; r1; r2; t0; t1; t2] [X; Y; Z])
  /\ (forall f focal ppx ppy rs0 rs1 rs2 cam_Rt,
        rd (Rig.pos_proj eps
              [focal; ppx; ppy; rs0; rs1; rs2; t0; t1; t2]
              cam_Rt [X; Y; Z]) 2 <> 0 ->
        Rig.call f eps
          [focal; ppx; ppy; rs0; rs1; rs2; s * t0; s * t1; s * t2]
          cam_Rt [s * X; s * Y; s * Z]
        = Rig.call f eps [focal; ppx; ppy; rs0; rs1; rs2; t0; t1; t2]
            cam_Rt [X; Y; Z]).
Proof.
  intros Hs. split; [| split; [| split]].
  - intros f cam_K Hz. unfold Pinhole.call, Pinhole.projected.
    rewrite (pinhole_undistorted_scale eps s) by assumption. reflexivity.
  - intros f cam_K Hz.
    unfold RadialK1.call, RadialK1.projected, RadialK1.distorted.
    rewrite !k1_undistorted.
    rewrite (pinhole_undistorted_scale eps s) by assumption. reflexivity.
  - intros f cam_K Hz.
    unfold RadialK3.call, RadialK3.projected, RadialK3.distorted.
    rewrite !k3_undistorted.
    rewrite (pinhole_undistorted_scale eps s) by assumption. reflexivity.
  - intros f focal ppx ppy rs0 rs1 rs2 cam_Rt Hz.
    unfold Rig.call, Rig.projected, Rig.undistorted.
    rewrite rig_pos_proj_scale.
    set (P := Rig.pos_proj eps
                [focal; ppx; ppy; rs0; rs1; rs2; t0; t1; t2]
                cam_Rt [X; Y; Z]) in *.
    change (rd [s * rd P 0; s * rd P 1; s * rd P 2] 0) with (s * rd P 0).
    change (rd [s * rd P 0; s * rd P 1; s * rd P 2] 1) with (s * rd P 1).
    change (rd [s * rd P 0; s * rd P 1; s * rd P 2] 2) with (s * rd P 2).
    replace (s * rd P 0 / (s * rd P 2)) with (rd P 0 / rd P 2)
      by (field; split; assumption).
    replace (s * rd P 1 / (s * rd P 2)) with (rd P 1 / rd P 2)
      by (field; split; assumption).
    reflexivity.
Qed.

Lemma residuals_invariant_under_scene_scale_witness :
  Pinhole.call (Pinhole.make [7; 9]) double_epsilon [1000; 500; 500]
    [0; 0; 0; -2 * 0; -2 * 0; -2 * 1] [-2 * 2; -2 * 3; -2 * 4]
  = Pinhole.call (Pinhole.make [7; 9]) double_epsilon [1000; 500; 500]
      [0; 0; 0; 0; 0; 1] [2; 3; 4]
  /\ Rig.call (Rig.make [7; 9]) double_epsilon
       [1000; 500; 500; 0; 0; 0; -2 * 0; -2 * 0; -2 * 1]
       [0; 0; 0; 5; 6; 7] [-2 * 2; -2 * 3; -2 * 4]
     = Rig.call (Rig.make [7; 9]) double_epsilon
         [1000; 500; 500; 0; 0; 0; 0; 0; 1] [0; 0; 0; 5; 6; 7] [2; 3; 4].
Proof.
  assert (Hs : -2 <> 0) by lra.
  assert (Hrig :
    rd (Rig.pos_proj double_epsilon [1000; 500; 500; 0; 0; 0; 0; 0; 1]
          [0; 0; 0; 5; 6; 7] [2; 3; 4]) 2 <> 0).
  { unfold Rig.pos_proj, offset. cbn [skipn].
    rewrite !rotate_zero_axis by reflexivity. unfold rd. cbn [nth]. lra. }
  split.
  - exact (proj1 (residuals_invariant_under_scene_scale double_epsilon
             (-2) 0 0 0 0 0 1 2 3 4 Hs)
             (Pinhole.make [7; 9]) [1000; 500; 500] pinhole_depth_example).
  - exact (proj2 (proj2 (proj2
             (residuals_invariant_under_scene_scale double_epsilon
                (-2) 0 0 0 0 0 1 2 3 4 Hs)))
             (Rig.make [7; 9]) 1000 500 500 0 0 0 [0; 0; 0; 5; 6; 7] Hrig).
Defined.

(** ** Moving the world frame *)

(** Translating the 3D point by [d] is the same as adding the rotated
    [d] to the camera translation: each plain-pose functor gives the
    point [p + d] under the pose [(r, t)] the output it gives [p] under
    [(r, t + Rot(r) d)]. *)
Theorem world_shift_moves_into_translation (eps : nonnegreal)
    (cam_K : block) (r0 r1 r2 t0 t1 t2 X Y Z dx dy dz : R) :
  let Rd := ceres.AngleAxisRotatePoint eps [r0; r1; r2] [dx; dy; dz] in
  let cam_Rt' := [r0; r1; r2; t0 + rd Rd 0; t1 + rd Rd 1; t2 + rd Rd 2] in
  (forall f,
     Pinhole.call f eps cam_K [r0; r1; r2; t0; t1; t2]
       [X + dx; Y + dy; Z + dz]
     = Pinhole.call f eps cam_K cam_Rt' [X; Y; Z])
  /\ (forall f,
        RadialK1.call f eps cam_K [r0; r1; r2; t0; t1; t2]
          [X + dx; Y + dy; Z + dz]
        = RadialK1.call f eps cam_K cam_Rt' [X; Y; Z])
  /\ (forall f,
        RadialK3.call f eps cam_K [r0; r1; r2; t0; t1; t2]
          [X + dx; Y + dy; Z + dz]
        = RadialK3.call f eps cam_K cam_Rt' [X; Y; Z]).
Proof.
  intros Rd cam_Rt'.
  assert (Hpos :
    Pinhole.pos_proj eps [r0; r1; r2; t0; t1; t2] [X + dx; Y + dy; Z + dz]
    = Pinhole.pos_proj eps cam_Rt' [X; Y; Z]).
  { unfold Pinhole.pos_proj, cam_Rt'.
    rewrite (rotate_add eps _ [X; Y; Z] [dx; dy; dz]
               [X + dx; Y + dy; Z + dz]) by reflexivity.
    rewrite (rotate_reads_three_axis_entries eps
               [r0; r1; r2; t0 + rd Rd 0; t1 + rd Rd 1; t2 + rd Rd 2]
               [r0; r1; r2; t0; t1; t2] [X; Y; Z]) by reflexivity.
    rewrite (rotate_reads_three_axis_entries eps
               [r0; r1; r2; t0; t1; t2] [r0; r1; r2] [dx; dy; dz])
      by reflexivity.
    fold Rd.
    set (Rp := ceres.AngleAxisRotatePoint eps
                 [r0; r1; r2; t0; t1; t2] [X; Y; Z]).
    unfold rd, offset. cbn [nth skipn]. apply point_eq; ring. }
  split; [| split]; intros f.
  - unfold Pinhole.call, Pinhole.projected, Pinhole.undistorted.
    rewrite Hpos. reflexivity.
  - unfold RadialK1.call, RadialK1.projected, RadialK1.distorted,
      RadialK1.undistorted.
    change (RadialK1.pos_proj eps) with (Pinhole.pos_proj eps).
    rewrite Hpos. reflexivity.
  - unfold RadialK3.call, RadialK3.projected, RadialK3.distorted,
      RadialK3.undistorted.
    change (RadialK3.pos_proj eps) with (Pinhole.pos_proj eps).
    rewrite Hpos. reflexivity.
Qed.

(** ** The rig functor as a pinhole functor *)

(** On every input the rig functor is the pinhole functor applied to the
    platform-rotated point, with the sub-pose rotation as its rotation
    and, as its translation, the sub-pose translation plus the sub-pose
    translation rotated by the platform rotation. *)
Theorem rig_is_pinhole_on_rotated_point (eps : nonnegreal)
    (focal ppx ppy rs0 rs1 rs2 ts0 ts1 ts2 : R)
    (cam_Rt pos_3dpoint pos_2dpoint : block) :
  let rig_trans := ceres.AngleAxisRotatePoint eps cam_Rt [ts0; ts1; ts2] in
  Rig.call (Rig.make pos_2dpoint) eps
    [focal; ppx; ppy; rs0; rs1; rs2; ts0; ts1; ts2] cam_Rt pos_3dpoint
  = Pinhole.call (Pinhole.make pos_2dpoint) eps [focal; ppx; ppy]
      [rs0; rs1; rs2;
       ts0 + rd rig_trans 0; ts1 + rd rig_trans 1; ts2 + rd rig_trans 2]
      (ceres.AngleAxisRotatePoint eps cam_Rt pos_3dpoint).
Proof.
  intros rig_trans.
  assert (Hpos :
    Rig.pos_proj eps [focal; ppx; ppy; rs0; rs1; rs2; ts0; ts1; ts2]
      cam_Rt pos_3dpoint
    = Pinhole.pos_proj eps
        [rs0; rs1; rs2;
         ts0 + rd rig_trans 0; ts1 + rd rig_trans 1; ts2 + rd rig_trans 2]
        (ceres.AngleAxisRotatePoint eps cam_Rt pos_3dpoint)).
  { unfold Rig.pos_proj, Pinhole.pos_proj, offset. cbn [skipn].
    rewrite (rotate_reads_three_axis_entries eps
               [rs0; rs1; rs2; ts0; ts1; ts2]
               [rs0; rs1; rs2;
                ts0 + rd rig_trans 0; ts1 + rd rig_trans 1;
                ts2 + rd rig_trans 2]) by reflexivity.
    fold rig_trans. reflexivity. }
  unfold Rig.call, Rig.projected, Rig.undistorted,
    Pinhole.call, Pinhole.projected, Pinhole.undistorted.
  rewrite Hpos. reflexivity.
Qed.

(** ** The image origin *)

(** The residuals depend on the principal point and the observation only
    through their difference: moving both by the same offset changes
    nothing, for each functor. *)
Theorem residuals_invariant_under_image_shift (eps : nonnegreal)
    (focal ppx ppy ox oy dx dy : R) (cam_Rt pos_3dpoint : block) :
  Pinhole.call (Pinhole.make [ox + dx; oy + dy]) eps
    [focal; ppx + dx; ppy + dy] cam_Rt pos_3dpoint
  = Pinhole.call (Pinhole.make [ox; oy]) eps
      [focal; ppx; ppy] cam_Rt pos_3dpoint
  /\ (forall k1,
        RadialK1.call (RadialK1.make [ox + dx; oy + dy]) eps
          [focal; ppx + dx; ppy + dy; k1] cam_Rt pos_3dpoint
        = RadialK1.call (RadialK1.make [ox; oy]) eps
            [focal; ppx; ppy; k1] cam_Rt pos_3dpoint)
  /\ (forall k1 k2 k3,
        RadialK3.call (RadialK3.make [ox + dx; oy + dy]) eps
          [focal; ppx + dx; ppy + dy; k1; k2; k3] cam_Rt pos_3dpoint
        = RadialK3.call (RadialK3.make [ox; oy]) eps
            [focal; ppx; ppy; k1; k2; k3] cam_Rt pos_3dpoint)
  /\ (forall rs0 rs1 rs2 ts0 ts1 ts2,
        Rig.call (Rig.make [ox + dx; oy + dy]) eps
          [focal; ppx + dx; ppy + dy; rs0; rs1; rs2; ts0; ts1; ts2]
          cam_Rt pos_3dpoint
        = Rig.call (Rig.make [ox; oy]) eps
            [focal; ppx; ppy; rs0; rs1; rs2; ts0; ts1; ts2]
            cam_Rt pos_3dpoint).
Proof.
  split; [| split; [| split]].
  - unfold Pinhole.call, Pinhole.projected.
    destruct (Pinhole.undistorted eps cam_Rt pos_3dpoint) as [x_u y_u].
    apply residuals_eq; cbn; ring.
  - intros k1.
    unfold RadialK1.call, RadialK1.projected, RadialK1.distorted,
      RadialK1.r_coeff.
    destruct (RadialK1.undistorted eps cam_Rt pos_3dpoint) as [x_u y_u].
    apply residuals_eq; cbn; ring.
  - intros k1 k2 k3.
    unfold RadialK3.call, RadialK3.projected, RadialK3.distorted,
      RadialK3.r_coeff.
    destruct (RadialK3.undistorted eps cam_Rt pos_3dpoint) as [x_u y_u].
    apply residuals_eq; cbn; ring.
  - intros rs0 rs1 rs2 ts0 ts1 ts2.
    unfold Rig.call, Rig.projected.
    change (Rig.undistorted eps
              [focal; ppx + dx; ppy + dy; rs0; rs1; rs2; ts0; ts1; ts2]
              cam_Rt pos_3dpoint)
      with (Rig.undistorted eps
              [focal; ppx; ppy; rs0; rs1; rs2; ts0; ts1; ts2]
              cam_Rt pos_3dpoint).
    destruct (Rig.undistorted eps
                [focal; ppx; ppy; rs0; rs1; rs2; ts0; ts1; ts2]
                cam_Rt pos_3dpoint) as [x_u y_u].
    apply residuals_eq; cbn; ring.
Qed.

(** ** The optical axis *)

(** A point that the pose transform puts on the optical axis (camera
    coordinates [(0, 0, Zc)], [Zc <> 0]) is predicted at the principal
    point by each functor, whatever the focal length and the distortion
    coefficients: the residual is the principal point minus the
    observation. *)
Theorem optical_axis_projects_to_principal_point (eps : nonnegreal)
    (cam_K cam_Rt pos_3dpoint : block) (ox oy : R) :
  (rd (Pinhole.pos_proj eps cam_Rt pos_3dpoint) 0 = 0 ->
   rd (Pinhole.pos_proj eps cam_Rt pos_3dpoint) 1 = 0 ->
   rd (Pinhole.pos_proj eps cam_Rt pos_3dpoint) 2 <> 0 ->
   Pinhole.call (Pinhole.make [ox; oy]) eps cam_K cam_Rt pos_3dpoint
   = ([rd cam_K 1 - ox; rd cam_K 2 - oy], true)
   /\ RadialK1.call (RadialK1.make [ox; oy]) eps cam_K cam_Rt pos_3dpoint
      = ([rd cam_K 1 - ox; rd cam_K 2 - oy], true)
   /\ RadialK3.call (RadialK3.make [ox; oy]) eps cam_K cam_Rt pos_3dpoint
      = ([rd cam_K 1 - ox; rd cam_K 2 - oy], true))
  /\ (rd (Rig.pos_proj eps cam_K cam_Rt pos_3dpoint) 0 = 0 ->
      rd (Rig.pos_proj eps cam_K cam_Rt pos_3dpoint) 1 = 0 ->
      rd (Rig.pos_proj eps cam_K cam_Rt pos_3dpoint) 2 <> 0 ->
      Rig.call (Rig.make [ox; oy]) eps cam_K cam_Rt pos_3dpoint
      = ([rd cam_K 1 - ox; rd cam_K 2 - oy], true)).
Proof.
  split.
  - intros H0 H1 Hz.
    assert (Hund : Pinhole.undistorted eps cam_Rt pos_3dpoint = (0, 0)).
    { unfold Pinhole.undistorted. rewrite H0, H1.
      f_equal; field; exact Hz. }
    split; [| split].
    + unfold Pinhole.call, Pinhole.projected. rewrite Hund.
      unfold Pinhole.OFFSET_PRINCIPAL_POINT_X,
        Pinhole.OFFSET_PRINCIPAL_POINT_Y.
      generalize (rd cam_K 1), (rd cam_K 2). intros px py.
      apply residuals_eq; cbn; ring.
    + unfold RadialK1.call, RadialK1.projected, RadialK1.distorted.
      rewrite k1_undistorted, Hund.
      unfold RadialK1.OFFSET_PRINCIPAL_POINT_X,
        RadialK1.OFFSET_PRINCIPAL_POINT_Y.
      generalize (rd cam_K 1), (rd cam_K 2). intros px py.
      apply residuals_eq; cbn; ring.
    + unfold RadialK3.call, RadialK3.projected, RadialK3.distorted.
      rewrite k3_undistorted, Hund.
      unfold RadialK3.OFFSET_PRINCIPAL_POINT_X,
        RadialK3.OFFSET_PRINCIPAL_POINT_Y.
      generalize (rd cam_K 1), (rd cam_K 2). intros px py.
      apply residuals_eq; cbn; ring.
  - intros H0 H1 Hz.
    unfold Rig.call, Rig.projected, Rig.undistorted. rewrite H0, H1.
    unfold Rig.OFFSET_PRINCIPAL_POINT_X, Rig.OFFSET_PRINCIPAL_POINT_Y.
    generalize (rd cam_K 1), (rd cam_K 2). intros px py.
    apply residuals_eq; cbn; field; exact Hz.
Qed.

Lemma optical_axis_projects_to_principal_point_witness :
  RadialK3.call (RadialK3.make [7; 9]) double_epsilon
    [1000; 500; 400; 1; 2; 3] [0; 0; 0; -2; -3; 1] [2; 3; 4]
  = ([rd [1000; 500; 400; 1; 2; 3] 1 - 7;
      rd [1000; 500; 400; 1; 2; 3] 2 - 9], true).
Proof.
  assert (Hpos :
    Pinhole.pos_proj double_epsilon [0; 0; 0; -2; -3; 1] [2; 3; 4]
    = [2 + -2; 3 + -3; 4 + 1]).
  { apply pinhole_pos_proj_identity_rotation. }
  assert (H0 :
    rd (Pinhole.pos_proj double_epsilon [0; 0; 0; -2; -3; 1] [2; 3; 4]) 0 = 0).
  { rewrite Hpos. unfold rd. cbn [nth]. lra. }
  assert (H1 :
    rd (Pinhole.pos_proj double_epsilon [0; 0; 0; -2; -3; 1] [2; 3; 4]) 1 = 0).
  { rewrite Hpos. unfold rd. cbn [nth]. lra. }
  assert (Hz :
    rd (Pinhole.pos_proj double_epsilon [0; 0; 0; -2; -3; 1] [2; 3; 4]) 2 <> 0).
  { rewrite Hpos. unfold rd. cbn [nth]. lra. }
  exact (proj2 (proj2 (proj1
           (optical_axis_projects_to_principal_point double_epsilon
              [1000; 500; 400; 1; 2; 3] [0; 0; 0; -2; -3; 1] [2; 3; 4] 7 9)
           H0 H1 Hz))).
Defined.

(** ** What the distortion adds *)

(** At non-zero depth the radial functors predict the pinhole pixel
    displaced along the normalized point [(xu, yu)]: by
    [focal * k1 * r2] times it for Radial-K1, and by
    [focal * (k1 r2 + k2 r2^2 + k3 r2^3)] times it for Radial-K3, with
    [r2 = xu^2 + yu^2]. *)
Theorem distortion_displaces_along_the_radius (eps : nonnegreal)
    (focal ppx ppy k1 k2 k3 : R) (cam_Rt pos_3dpoint : block) :
  rd (Pinhole.pos_proj eps cam_Rt pos_3dpoint) 2 <> 0 ->
  let xu := fst (Pinhole.undistorted eps cam_Rt pos_3dpoint) in
  let yu := snd (Pinhole.undistorted eps cam_Rt pos_3dpoint) in
  let r2 := xu ^ 2 + yu ^ 2 in
  let p := Pinhole.projected eps [focal; ppx; ppy] cam_Rt pos_3dpoint in
  RadialK1.projected eps [focal; ppx; ppy; k1] cam_Rt pos_3dpoint
  = (fst p + focal * k1 * r2 * xu, snd p + focal * k1 * r2 * yu)
  /\ RadialK3.projected eps [focal; ppx; ppy; k1; k2; k3] cam_Rt pos_3dpoint
     = (fst p + focal * (k1 * r2 + k2 * r2 ^ 2 + k3 * r2 ^ 3) * xu,
        snd p + focal * (k1 * r2 + k2 * r2 ^ 2 + k3 * r2 ^ 3) * yu).
Proof.
  intros _ xu yu r2 p. subst xu yu r2 p.
  unfold RadialK1.projected, RadialK1.distorted, RadialK1.r_coeff,
    RadialK3.projected, RadialK3.distorted, RadialK3.r_coeff,
    Pinhole.projected.
  change (RadialK1.undistorted eps cam_Rt pos_3dpoint)
    with (Pinhole.undistorted eps cam_Rt pos_3dpoint).
  change (RadialK3.undistorted eps cam_Rt pos_3dpoint)
    with (Pinhole.undistorted eps cam_Rt pos_3dpoint).
  destruct (Pinhole.undistorted eps cam_Rt pos_3dpoint) as [x_u y_u].
  cbn. split; f_equal; ring.
Qed.

Lemma distortion_displaces_along_the_radius_witness :
  RadialK1.projected double_epsilon [1000; 500; 500; / 10]
    [0; 0; 0; 0; 0; 1] [2; 3; 4]
  = (fst (Pinhole.projected double_epsilon [1000; 500; 500]
            [0; 0; 0; 0; 0; 1] [2; 3; 4])
     + 1000 * / 10
       * (fst (Pinhole.undistorted double_epsilon
                 [0; 0; 0; 0; 0; 1] [2; 3; 4]) ^ 2
          + snd (Pinhole.undistorted double_epsilon
                   [0; 0; 0; 0; 0; 1] [2; 3; 4]) ^ 2)
       * fst (Pinhole.undistorted double_epsilon
                [0; 0; 0; 0; 0; 1] [2; 3; 4]),
     snd (Pinhole.projected double_epsilon [1000; 500; 500]
            [0; 0; 0; 0; 0; 1] [2; 3; 4])
     + 1000 * / 10
       * (fst (Pinhole.undistorted double_epsilon
                 [0; 0; 0; 0; 0; 1] [2; 3; 4]) ^ 2
          + snd (Pinhole.undistorted double_epsilon
                   [0; 0; 0; 0; 0; 1] [2; 3; 4]) ^ 2)
       * snd (Pinhole.undistorted double_epsilon
                [0; 0; 0; 0; 0; 1] [2; 3; 4])).
Proof.
  exact (proj1 (distortion_displaces_along_the_radius double_epsilon
                  1000 500 500 (/ 10) 0 0
                  [0; 0; 0; 0; 0; 1] [2; 3; 4] pinhole_depth_example)).
Defined.

(** With nonnegative distortion coefficients the distorted point is at
    least as far from the optical axis as the undistorted one
    ([xu^2 + yu^2 <= xd^2 + yd^2]): the coefficient [r_coeff] is at
    least 1. *)
Theorem nonnegative_distortion_pushes_outwards (eps : nonnegreal)
    (cam_K cam_Rt pos_3dpoint : block) :
  (0 <= rd cam_K 3 ->
   let u := RadialK1.undistorted eps cam_Rt pos_3dpoint in
   let d := RadialK1.distorted eps cam_K cam_Rt pos_3dpoint in
   1 <= RadialK1.r_coeff cam_K (fst u) (snd u)
   /\ fst u ^ 2 + snd u ^ 2 <= fst d ^ 2 + snd d ^ 2)
  /\ (0 <= rd cam_K 3 -> 0 <= rd cam_K 4 -> 0 <= rd cam_K 5 ->
      let u := RadialK3.undistorted eps cam_Rt pos_3dpoint in
      let d := RadialK3.distorted eps cam_K cam_Rt pos_3dpoint in
      1 <= RadialK3.r_coeff cam_K (fst u) (snd u)
      /\ fst u ^ 2 + snd u ^ 2 <= fst d ^ 2 + snd d ^ 2).
Proof.
  split.
  - intros Hk1 u d. subst u d. unfold RadialK1.distorted.
    destruct (RadialK1.undistorted eps cam_Rt pos_3dpoint) as [x_u y_u].
    cbn [fst snd].
    assert (Hc : 1 <= RadialK1.r_coeff cam_K x_u y_u).
    { unfold RadialK1.r_coeff, RadialK1.OFFSET_DISTO_K1.
      assert (0 <= x_u * x_u + y_u * y_u) by nra.
      assert (0 <= rd cam_K 3 * (x_u * x_u + y_u * y_u))
        by (apply Rmult_le_pos; assumption).
      lra. }
    split; [exact Hc |].
    set (c := RadialK1.r_coeff cam_K x_u y_u) in *.
    assert (Hcc : 1 <= c * c) by nra.
    nra.
  - intros Hk1 Hk2 Hk3 u d. subst u d. unfold RadialK3.distorted.
    destruct (RadialK3.undistorted eps cam_Rt pos_3dpoint) as [x_u y_u].
    cbn [fst snd].
    assert (Hc : 1 <= RadialK3.r_coeff cam_K x_u y_u).
    { unfold RadialK3.r_coeff, RadialK3.OFFSET_DISTO_K1,
        RadialK3.OFFSET_DISTO_K2, RadialK3.OFFSET_DISTO_K3.
      assert (Hr2 : 0 <= x_u * x_u + y_u * y_u) by nra.
      set (r2 := x_u * x_u + y_u * y_u) in *.
      assert (0 <= rd cam_K 3 * r2) by (apply Rmult_le_pos; assumption).
      assert (0 <= r2 * r2) by (apply Rmult_le_pos; assumption).
      assert (0 <= rd cam_K 4 * (r2 * r2))
        by (apply Rmult_le_pos; assumption).
      assert (0 <= r2 * r2 * r2) by (apply Rmult_le_pos; assumption).
      assert (0 <= rd cam_K 5 * (r2 * r2 * r2))
        by (apply Rmult_le_pos; assumption).
      lra. }
    split; [exact Hc |].
    set (c := RadialK3.r_coeff cam_K x_u y_u) in *.
    assert (Hcc : 1 <= c * c) by nra.
    nra.
Qed.

Lemma nonnegative_distortion_pushes_outwards_witness :
  1 <= RadialK1.r_coeff [1000; 500; 500; / 10]
         (fst (RadialK1.undistorted double_epsilon
                 [0; 0; 0; 0; 0; 1] [2; 3; 4]))
         (snd (RadialK1.undistorted double_epsilon
                 [0; 0; 0; 0; 0; 1] [2; 3; 4]))
  /\ fst (RadialK1.undistorted double_epsilon
            [0; 0; 0; 0; 0; 1] [2; 3; 4]) ^ 2
     + snd (RadialK1.undistorted double_epsilon
              [0; 0; 0; 0; 0; 1] [2; 3; 4]) ^ 2
     <= fst (RadialK1.distorted double_epsilon [1000; 500; 500; / 10]
               [0; 0; 0; 0; 0; 1] [2; 3; 4]) ^ 2
        + snd (RadialK1.distorted double_epsilon [1000; 500; 500; / 10]
                 [0; 0; 0; 0; 0; 1] [2; 3; 4]) ^ 2.
Proof.
  assert (Hk1 : 0 <= rd [1000; 500; 500; / 10] 3).
  { unfold rd. cbn [nth]. lra. }
  exact (proj1 (nonnegative_distortion_pushes_outwards double_epsilon
                  [1000; 500; 500; / 10] [0; 0; 0; 0; 0; 1] [2; 3; 4]) Hk1).
Defined.
